(** * infohash: a fingerprint of a struct that localises one changed field

    Shallow embedding of the package: [infohash.go] and the Hamming code it
    builds on ([calculateHammingCode], [findErrorLocation],
    [log2OfXPlusOne]), with the properties of the encoding that the
    specification states.

    Conventions of the embedding.
    - [uint32], [uint64] and [byte] values are integers of [Z], every
      operation that can leave the range is followed by its reduction
      ([uint32], [uint64], [byte]).  Go's [int] (loop counters, [len]) is
      64 bits wide and never leaves its range here, so it is a plain [Z] or
      [nat].
    - An index expression of Go panics when it is out of range.  Functions
      that index return an [outcome], whose [Panics] is that run-time panic.
    - A Go function returning [(T, error)] returns a [result]: [Fail e] is
      the pair [(nil, e)].  A plain [error] is an [option error], [None]
      being [nil].
    - [reflect] panics when [Interface] is called on a value obtained from
      an unexported field.  A struct field carries its [PkgPath], empty
      exactly when the field is exported, and [getFieldInfos] is an
      [outcome] for that panic.
    - go-spew and the reflected value of a field are not part of the
      sources: the type of field values and the bytes that
      [prettyPrintConfigForHash.Fprintf(w, "%#v", v)] writes for one are
      parameters of the embedding. *)

From Stdlib Require Import ZArith List String Ascii Lia Bool.
From Stdlib Require Import Permutation Sorted OrderedTypeEx.
From stdpp Require Import gmap strings list sorting.

Local Open Scope string_scope.
Local Open Scope list_scope.
Local Open Scope Z_scope.

(** ** Machine integers *)

Definition byte (x : Z) : Z := x mod 2 ^ 8.
Definition uint32 (x : Z) : Z := x mod 2 ^ 32.
Definition uint64 (x : Z) : Z := x mod 2 ^ 64.

Definition isByte (x : Z) : Prop := 0 <= x < 2 ^ 8.
Definition isUint32 (x : Z) : Prop := 0 <= x < 2 ^ 32.
Definition isUint64 (x : Z) : Prop := 0 <= x < 2 ^ 64.

(** [[]byte(s)] for a Go string. *)
Definition bytesOf (s : string) : list Z :=
  List.map (fun c => Z.of_N (N_of_ascii c)) (list_ascii_of_string s).

(** ** Panics and errors *)

Inductive outcome (A : Type) : Type :=
| Returns (a : A)
| Panics.
Arguments Returns {A} a.
Arguments Panics {A}.

Definition obind {A B} (m : outcome A) (k : A -> outcome B) : outcome B :=
  match m with
  | Returns a => k a
  | Panics => Panics
  end.

Notation "x <-! m ; k" := (obind m (fun x => k))
  (at level 100, m at next level, right associativity).

(** [s[i]] on a slice given by its elements. *)
Definition index {A} (s : list A) (i : nat) : outcome A :=
  match s !! i with
  | Some a => Returns a
  | None => Panics
  end.

(** The errors of the package.  [FieldChangedError] is the exported struct;
    the other four are the [fmt.Errorf] values of [getFieldInfos]:
    "the object must be a pointer", "the object must be a pointer to a
    struct", "the field %s has no tag infohash" and "the tag %q is used more
    than once". *)
Inductive error : Type :=
| ErrNotPointer
| ErrNotStruct
| ErrNoTag (fieldName : string)
| ErrTagReused (tag : string)
| FieldChangedError (Field : string).

Inductive result (A : Type) : Type :=
| Ret (a : A)
| Fail (e : error).
Arguments Ret {A} a.
Arguments Fail {A} e.

(** ** Byte slices

    A [[]byte] is a window on an array: [elems] are the [len] bytes in the
    window, [spare] the bytes of the array between [len] and [cap].  Go lets
    [s[:j]] reach into the spare part and refuses [s[i:]] when [i] is past
    [len]. *)
Record byteSlice : Type := Slice { elems : list Z; spare : list Z }.

Definition len (s : byteSlice) : nat := length (elems s).
Definition cap (s : byteSlice) : nat := (length (elems s) + length (spare s))%nat.

(** [s[:j]] *)
Definition sliceTo (s : byteSlice) (j : nat) : outcome byteSlice :=
  if (j <=? cap s)%nat
  then Returns (Slice (take j (elems s ++ spare s)) (drop j (elems s ++ spare s)))
  else Panics.

(** [s[i:]] *)
Definition sliceFrom (s : byteSlice) (i : nat) : outcome byteSlice :=
  if (i <=? len s)%nat
  then Returns (Slice (drop i (elems s)) (spare s))
  else Panics.

(** ** hash/fnv: FNV-1a, 32 and 64 bits *)

Definition offset32 : Z := 2166136261.
Definition prime32 : Z := 16777619.
Definition offset64 : Z := 14695981039346656037.
Definition prime64 : Z := 1099511628211.

Definition write32 (h : Z) (data : list Z) : Z :=
  fold_left (fun h c => uint32 (Z.lxor h c * prime32)) data h.

Definition write64 (h : Z) (data : list Z) : Z :=
  fold_left (fun h c => uint64 (Z.lxor h c * prime64)) data h.

(** ** The Hamming code *)

Fixpoint log2Loop (fuel : nat) (x r : Z) : Z :=
  match fuel with
  | O => r
  | S fuel' =>
      if 0 <? x then log2Loop fuel' (Z.shiftr x 1) (uint32 (r + 1)) else r
  end.

(** [x] is a [uint32]: the loop halves it at most 32 times
    (lemma [log2Loop_fuel] below: more fuel changes nothing). *)
Definition log2OfXPlusOne (x : Z) : Z := log2Loop 32 x 0.

(** The inner loop [for i := range parityCodes], from index [i] on. *)
Fixpoint xorParity (id : Z) (field : Z) (i : Z) (parityCodes : list Z) : list Z :=
  match parityCodes with
  | [] => []
  | c :: rest =>
      (if Z.land (id + 1) (Z.shiftl 1 i) =? 0 then c else Z.lxor c field)
        :: xorParity id field (i + 1) rest
  end.

(** The outer loop [for id, field := range fields], from index [id] on. *)
Fixpoint hammingLoop (id : Z) (fields : list Z) (parityCodes : list Z) : list Z :=
  match fields with
  | [] => parityCodes
  | field :: rest => hammingLoop (id + 1) rest (xorParity id field 0 parityCodes)
  end.

Definition calculateHammingCode (fields : list Z) : list Z :=
  let log2NumberOfFieldsPlusOne := log2OfXPlusOne (uint32 (Z.of_nat (length fields))) in
  let parityCodes := replicate (Z.to_nat log2NumberOfFieldsPlusOne) 0 in
  hammingLoop 0 fields parityCodes.

(** The loop [for i := range hammingCode] of [findErrorLocation], from
    index [i] on; [expectedCode[i]] is the access that can panic. *)
Fixpoint locateLoop (i : nat) (hammingCode expectedCode : list Z) (errorLocation : Z)
  : outcome Z :=
  match hammingCode with
  | [] => Returns errorLocation
  | h :: rest =>
      e <-! index expectedCode i;
      locateLoop (S i) rest expectedCode
        (if h =? e then errorLocation
         else Z.lor errorLocation (uint32 (Z.shiftl 1 (Z.of_nat i))))
  end.

Definition findErrorLocation (fields hammingCode : list Z) : outcome (bool * Z) :=
  let expectedCode := calculateHammingCode fields in
  errorLocation <-! locateLoop 0 hammingCode expectedCode 0;
  if (errorLocation =? 0) || (uint32 (Z.of_nat (length fields)) <? errorLocation)
  then Returns (false, 0)
  else Returns (true, uint32 (errorLocation - 1)).

(** ** The codec of infohash.go *)

Definition uint64FromSlice (s : list Z) : outcome Z :=
  b0 <-! index s 0; b1 <-! index s 1; b2 <-! index s 2; b3 <-! index s 3;
  b4 <-! index s 4; b5 <-! index s 5; b6 <-! index s 6; b7 <-! index s 7;
  Returns
    (Z.lor (Z.lor (Z.lor (Z.lor (Z.lor (Z.lor (Z.lor (Z.lor 0
       (uint64 (Z.shiftl b0 0))) (uint64 (Z.shiftl b1 8)))
       (uint64 (Z.shiftl b2 16))) (uint64 (Z.shiftl b3 24)))
       (uint64 (Z.shiftl b4 32))) (uint64 (Z.shiftl b5 40)))
       (uint64 (Z.shiftl b6 48))) (uint64 (Z.shiftl b7 56))).

Definition uint64ToSlice (i : Z) : list Z :=
  [ byte (Z.land 255 (Z.shiftr i 0)); byte (Z.land 255 (Z.shiftr i 8));
    byte (Z.land 255 (Z.shiftr i 16)); byte (Z.land 255 (Z.shiftr i 24));
    byte (Z.land 255 (Z.shiftr i 32)); byte (Z.land 255 (Z.shiftr i 40));
    byte (Z.land 255 (Z.shiftr i 48)); byte (Z.land 255 (Z.shiftr i 56)) ].

(** The loop [for i := range out] of [uint32SliceFromByteSlice], from index
    [i] on, [n] elements of [out] left. *)
Fixpoint fromByteLoop (s : list Z) (i n : nat) : outcome (list Z) :=
  match n with
  | O => Returns []
  | S n' =>
      b0 <-! index s (i * 4 + 0); b1 <-! index s (i * 4 + 1);
      b2 <-! index s (i * 4 + 2); b3 <-! index s (i * 4 + 3);
      out <-! fromByteLoop s (S i) n';
      Returns (Z.lor (Z.lor (Z.lor (uint32 (Z.shiftl b0 0)) (uint32 (Z.shiftl b1 8)))
                 (uint32 (Z.shiftl b2 16))) (uint32 (Z.shiftl b3 24)) :: out)
  end.

Definition uint32SliceFromByteSlice (s : list Z) : outcome (list Z) :=
  fromByteLoop s 0 (length s / 4).

(** [out] has four bytes for each word, written in order. *)
Fixpoint uint32SliceToByteSlice (i : list Z) : list Z :=
  match i with
  | [] => []
  | w :: rest =>
      byte (Z.land 255 (Z.shiftr w 0)) :: byte (Z.land 255 (Z.shiftr w 8))
        :: byte (Z.land 255 (Z.shiftr w 16)) :: byte (Z.land 255 (Z.shiftr w 24))
        :: uint32SliceToByteSlice rest
  end.

(** ** Reflection: what [getFieldInfos] sees of its argument *)

Definition tagName : string := "infohash".

(** [reflect.StructTag]: the key/value pairs of the tag string, in order. *)
Definition StructTag : Type := list (string * string).

(** [tag.Get(key)]: the value of the first pair with that key, the empty
    string when there is none. *)
Fixpoint Get (tag : StructTag) (key : string) : string :=
  match tag with
  | [] => ""
  | (k, v) :: rest => if String.eqb k key then v else Get rest key
  end.

Section Infohash.

(** The values fields hold, and the bytes go-spew writes for the pointer to
    one under [prettyPrintConfigForHash] and the verb [%#v]. *)
Variable V : Type.
Variable Fprintf : V -> list Z.

(** [reflect.StructField], with the value the field holds.  [PkgPath] is
    the package path that qualifies the name of an unexported field; it is
    empty for an exported one. *)
Record structField : Type := StructField {
  Name : string;
  PkgPath : string;
  Tag : StructTag;
  Value : V
}.

(** The argument [obj interface{}], by what [reflect] reports of it: a
    value whose kind is not [Ptr] (the nil interface included), a pointer
    whose element is not a struct (the nil pointer included), or a pointer
    to a struct with its fields in declaration order. *)
Inductive object : Type :=
| NotPointer
| PointerToOther
| PointerToStruct (fields : list structField).

Record fieldInfo : Type := FieldInfo {
  name : string;
  fieldValue : V
}.

(** [fieldValue.Addr().Interface()]: [reflect] panics when [Interface] is
    called on a value obtained from an unexported field. *)
Definition Interface (structField : structField) : outcome V :=
  if String.eqb (PkgPath structField) "" then Returns (Value structField)
  else Panics.

(** The loop [for i := 0; i < t.NumField(); i++] of [getFieldInfos], on the
    fields left. *)
Fixpoint collectFields (fields : list structField) (tags : gset string)
    (fieldInfos : list fieldInfo) : outcome (result (list fieldInfo)) :=
  match fields with
  | [] => Returns (Ret fieldInfos)
  | structField :: rest =>
      let tag := Get (Tag structField) tagName in
      if String.eqb tag "" then Returns (Fail (ErrNoTag (Name structField)))
      else if decide (tag ∈ tags) then Returns (Fail (ErrTagReused tag))
      else
        fieldValue <-! Interface structField;
        collectFields rest ({[ tag ]} ∪ tags) (fieldInfos ++ [FieldInfo tag fieldValue])
  end.

(** [sort.Slice(fieldInfos, less)] with [less] comparing names by [<], the
    byte-wise order of Go strings.  The names are distinct when the sort
    runs, so the outcome is the one sorted arrangement whatever the
    algorithm (lemma [sortByName_unique] below); insertion is the simplest
    one to write. *)
Definition less (a b : fieldInfo) : bool := String.ltb (name a) (name b).

Fixpoint insertByName (x : fieldInfo) (l : list fieldInfo) : list fieldInfo :=
  match l with
  | [] => [x]
  | y :: rest => if less y x then y :: insertByName x rest else x :: y :: rest
  end.

Fixpoint sortByName (l : list fieldInfo) : list fieldInfo :=
  match l with
  | [] => []
  | x :: rest => insertByName x (sortByName rest)
  end.

Definition getFieldInfos (obj : object) : outcome (result (list fieldInfo)) :=
  match obj with
  | NotPointer => Returns (Fail ErrNotPointer)
  | PointerToOther => Returns (Fail ErrNotStruct)
  | PointerToStruct fields =>
      r <-! collectFields fields ∅ [];
      match r with
      | Fail e => Returns (Fail e)
      | Ret fieldInfos => Returns (Ret (sortByName fieldInfos))
      end
  end.

(** The two hashers behind [io.MultiWriter(fullHash, fieldHash)]. *)
Record hashers : Type := Hashers { fullHash : Z; fieldHash : Z }.

Definition multiWrite (h : hashers) (data : list Z) : hashers :=
  Hashers (write64 (fullHash h) data) (write32 (fieldHash h) data).

Definition resetField (h : hashers) : hashers := Hashers (fullHash h) offset32.

(** The loop [for _, info := range fieldInfos] of [getHashes].  Writing to
    an FNV hasher never fails, so neither error return of the loop is ever
    taken and the function has no error case. *)
Fixpoint hashLoop (fieldInfos : list fieldInfo) (h : hashers) (fieldHashes : list Z)
  : Z * list Z :=
  match fieldInfos with
  | [] => (fullHash h, fieldHashes)
  | info :: rest =>
      let h := resetField h in
      let h := multiWrite h (bytesOf (name info)) in
      let h := multiWrite h (Fprintf (fieldValue info)) in
      hashLoop rest h (fieldHashes ++ [fieldHash h])
  end.

Definition getHashes (fieldInfos : list fieldInfo) : Z * list Z :=
  hashLoop fieldInfos (Hashers offset64 offset32) [].

(** [combinedHash] is made with the capacity it ends up filling: the
    returned slice has no spare bytes. *)
Definition hashInfo (fieldInfos : list fieldInfo) : result byteSlice :=
  let '(fullHash, fieldHashes) := getHashes fieldInfos in
  let hammingCode := calculateHammingCode fieldHashes in
  Ret (Slice (uint64ToSlice fullHash ++ uint32SliceToByteSlice hammingCode) []).

Definition HashStruct (obj : object) : outcome (result byteSlice) :=
  r <-! getFieldInfos obj;
  match r with
  | Fail err => Returns (Fail err)
  | Ret fieldInfos => Returns (hashInfo fieldInfos)
  end.

(** [CompareHashStruct] returns an [error]: [None] is [nil]. *)
Definition CompareHashStruct (obj : object) (existingHash : byteSlice)
  : outcome (option error) :=
  r <-! getFieldInfos obj;
  match r with
  | Fail err => Returns (Some err)
  | Ret fieldInfos =>
      let '(fullHash, fieldHashes) := getHashes fieldInfos in
      head8 <-! sliceTo existingHash 8;
      existingFullHash <-! uint64FromSlice (elems head8);
      if existingFullHash =? fullHash then Returns None
      else
        tail <-! sliceFrom existingHash 8;
        existingHammingCode <-! uint32SliceFromByteSlice (elems tail);
        r <-! findErrorLocation fieldHashes existingHammingCode;
        let '(foundLocation, location) := r in
        if negb foundLocation then Returns (Some (FieldChangedError ""))
        else
          mismatchingField <-! index fieldInfos (Z.to_nat location);
          Returns (Some (FieldChangedError (name mismatchingField)))
  end.

End Infohash.

Arguments StructField {V} Name PkgPath Tag Value.
Arguments Name {V} s.
Arguments PkgPath {V} s.
Arguments Tag {V} s.
Arguments Value {V} s.
Arguments NotPointer {V}.
Arguments PointerToOther {V}.
Arguments PointerToStruct {V} fields.
Arguments FieldInfo {V} name fieldValue.
Arguments name {V} f.
Arguments fieldValue {V} f.
Arguments Interface {V} structField.
Arguments collectFields {V} fields tags fieldInfos.
Arguments less {V} a b.
Arguments insertByName {V} x l.
Arguments sortByName {V} l.
Arguments getFieldInfos {V} obj.
Arguments hashLoop {V} Fprintf fieldInfos h fieldHashes.
Arguments getHashes {V} Fprintf fieldInfos.
Arguments hashInfo {V} Fprintf fieldInfos.
Arguments HashStruct {V} Fprintf obj.
Arguments CompareHashStruct {V} Fprintf obj existingHash.

(** ** Vocabulary of the statements *)

(** The identifier of a field: the value of its [infohash] tag. *)
Definition tagOf {V} (f : structField V) : string := Get (Tag f) tagName.

(** The entry [getFieldInfos] makes for a field. *)
Definition infoOf {V} (f : structField V) : fieldInfo V :=
  FieldInfo (tagOf f) (Value f).

(** The structural contract of [HashStruct] and [CompareHashStruct]: a
    non-empty tag on every field, no tag used twice. *)
Definition wellFormed {V} (fields : list (structField V)) : Prop :=
  Forall (fun f => tagOf f <> "") fields /\ NoDup (List.map tagOf fields).

#[global] Instance wellFormed_dec {V} (fields : list (structField V)) :
  Decision (wellFormed fields).
Proof. unfold wellFormed. apply _. Defined.

(** Every field is an exported one, the fields on which [reflect] allows
    [Interface]. *)
Definition exportedFields {V} (fields : list (structField V)) : Prop :=
  Forall (fun f => PkgPath f = "") fields.

#[global] Instance exportedFields_dec {V} (fields : list (structField V)) :
  Decision (exportedFields fields).
Proof. unfold exportedFields. apply _. Defined.


(** The order of [less] as a relation. *)
Definition nameLt {V} (a b : fieldInfo V) : Prop := less a b = true.

(** The bytes one field feeds to both hashers, its 32-bit checksum, and the
    64-bit checksum of a whole sequence of fields. *)
Definition stream {V} (Fprintf : V -> list Z) (info : fieldInfo V) : list Z :=
  bytesOf (name info) ++ Fprintf (fieldValue info).

Definition checksum {V} (Fprintf : V -> list Z) (info : fieldInfo V) : Z :=
  write32 offset32 (stream Fprintf info).

Definition fullChecksum {V} (Fprintf : V -> list Z) (fieldInfos : list (fieldInfo V)) : Z :=
  write64 offset64 (concat (List.map (stream Fprintf) fieldInfos)).

(** A field as the hashers see it: its identifier and the bytes printed
    for its value. *)
Definition serialized {V} (Fprintf : V -> list Z) (f : structField V) : string * list Z :=
  (tagOf f, Fprintf (Value f)).

Definition printedInfo {V} (Fprintf : V -> list Z) (info : fieldInfo V)
  : fieldInfo (list Z) :=
  FieldInfo (name info) (Fprintf (fieldValue info)).

(** [CompareHashStruct] from the line after [getHashes] on, as a function of
    what it still uses: the names of the sorted fields, the two kinds of
    checksum and the stored hash. *)
Definition compareHashes (names : list string) (fullHash : Z) (fieldHashes : list Z)
    (existingHash : byteSlice) : outcome (option error) :=
  head8 <-! sliceTo existingHash 8;
  existingFullHash <-! uint64FromSlice (elems head8);
  if existingFullHash =? fullHash then Returns None
  else
    tail <-! sliceFrom existingHash 8;
    existingHammingCode <-! uint32SliceFromByteSlice (elems tail);
    r <-! findErrorLocation fieldHashes existingHammingCode;
    let '(foundLocation, location) := r in
    if negb foundLocation then Returns (Some (FieldChangedError ""))
    else
      mismatchingField <-! index names (Z.to_nat location);
      Returns (Some (FieldChangedError mismatchingField)).



(** ** The parity code as the specification words it

    The number of parity words for [n] fields, [ceil(log2(n + 1))]. *)
Definition parityCount (n : nat) : Z := Z.log2_up (Z.of_nat n + 1).

(** The XOR of every checksum of [fields] whose 1-based position has bit [k]
    set, [pos] being the position of the first one. *)
Fixpoint xorSelected (k : Z) (pos : Z) (fields : list Z) : Z :=
  match fields with
  | [] => 0
  | field :: rest =>
      Z.lxor (if Z.testbit pos k then field else 0) (xorSelected k (pos + 1) rest)
  end.

(** Whether parity word [k] is present in both codes and differs. *)
Definition differsAt (stored expected : list Z) (k : nat) : bool :=
  match stored !! k, expected !! k with
  | Some a, Some b => negb (a =? b)
  | _, _ => false
  end.

(** ** The records of the tests

    One instance of the parameters serves every concrete record below: a
    field value is given by the text go-spew prints for the pointer to it
    (the type in parentheses, then the value), and [Fprintf] writes the bytes
    of that text. *)
Definition printed : string -> list Z := bytesOf.

(** An exported field whose tag is its name. *)
Definition tagged (field : string) (v : string) : structField string :=
  StructField field "" [(tagName, field)] v.

(** An unexported field of the package, with its name as tag. *)
Definition unexported (field : string) (v : string) : structField string :=
  StructField field "github.com/inteon/infohash" [(tagName, field)] v.

(** The record of [TestHashStatic]. *)
Definition testStatic : object string :=
  PointerToStruct
    [ tagged "Field1" "(*string)test1";
      tagged "Field2" "(*[]string)[test2 test3]";
      tagged "Field3" "(*int)123";
      tagged "Field4" "(*string)test4";
      tagged "Field5" "(*float32)123.456";
      tagged "Field6" "(*float32)0";
      tagged "Field7" "(*float32)0";
      tagged "Field8" "(*float32)0";
      tagged "Field9" "(*float32)0";
      tagged "Field10" "(*float32)0";
      tagged "Field11" "(*float32)0";
      tagged "Field12" "(*float32)0" ].

(** The bytes of "5d69bd36c3021e652f75a61a8bfcacedd54dff048b9eb95c". *)
Definition testStaticHash : list Z :=
  [ 93; 105; 189; 54; 195; 2; 30; 101; 47; 117; 166; 26;
    139; 252; 172; 237; 213; 77; 255; 4; 139; 158; 185; 92 ].

(** The record of [TestHashStruct]. *)
Definition testStruct (f1 f2 f3 f4 f5 : string) : list (structField string) :=
  [ tagged "Field1" ("(*string)" ++ f1); tagged "Field2" ("(*string)" ++ f2);
    tagged "Field3" ("(*string)" ++ f3); tagged "Field4" ("(*string)" ++ f4);
    tagged "Field5" ("(*string)" ++ f5) ].

Definition test1 : list (structField string) :=
  testStruct "test1" "test2" "test3" "test4" "test5".

(** Two records of [TestGetFieldInfos]: a tag used twice, and a field
    without the tag. *)
Definition tagUsedTwice : list (structField string) :=
  [ StructField "Field1" "" [(tagName, "Field2")] "(*map[int]*[]string)<nil>";
    StructField "Field2" "" [(tagName, "Field2")] "(****string)<nil>" ].

Definition tagMissing : list (structField string) :=
  [ StructField "Field1" "" [] "(*map[int]*[]string)<nil>";
    StructField "Field2" "" [(tagName, "Field2")] "(****string)<nil>" ].

(** [test1] with its fields declared in another order. *)
Definition test1Shuffled : list (structField string) :=
  [ tagged "Field4" "(*string)test4"; tagged "Field1" "(*string)test1";
    tagged "Field5" "(*string)test5"; tagged "Field3" "(*string)test3";
    tagged "Field2" "(*string)test2" ].

(** A record without fields, and a stored hash of twelve zero bytes. *)
Definition noFields : list (structField string) := [].

Definition twelveZeros : byteSlice := Slice (replicate 12 0) [].

(** The fingerprint of [noFields] followed by four more bytes. *)
Definition noFieldsPadded : byteSlice :=
  Slice (uint64ToSlice offset64 ++ [0; 0; 0; 0]) [].

(** Two values of [Field1] with the same 32-bit checksum. *)
Definition collisionOld : list (structField string) :=
  testStruct "boczw" "test2" "test3" "test4" "test5".

Definition collisionNew : list (structField string) :=
  testStruct "xfbpa" "test2" "test3" "test4" "test5".

(** [test1] after the change of [Field1] and after the change of [Field4]
    that [TestHashStruct] makes, and after a change of both [Field1] and
    [Field2]. *)
Definition test1Field1Changed : list (structField string) :=
  testStruct "Field1 changed" "test2" "test3" "test4" "test5".

Definition test1Field4Changed : list (structField string) :=
  testStruct "test1" "test2" "test3" "Field4 changed" "test5".

Definition test1TwoChanged : list (structField string) :=
  testStruct "Field1 changed" "Field2 changed" "test3" "test4" "test5".

(** The field [f] holding [v] instead of its value, and the same change on
    the entries of [getFieldInfos]: the entry named [tag] gets the value [v]. *)
Definition withValue {V} (f : structField V) (v : V) : structField V :=
  StructField (Name f) (PkgPath f) (Tag f) v.

Definition setValue {V} (tag : string) (v : V) (x : fieldInfo V) : fieldInfo V :=
  if String.eqb (name x) tag then FieldInfo (name x) v else x.

(** ** The rest of infohash.go *)

(** [FieldChangedError.Error].  The verb [%q] of [fmt.Sprintf] quotes the
    field name as [strconv.Quote] does; the quoting is a parameter. *)
Definition Error (quote : string -> string) (Field : string) : string :=
  if String.eqb Field "" then "a field value changed"
  else "the field " ++ quote Field ++ "'s value changed".

(** The quoting of a name without quotes, backslashes or unprintable
    characters: the name between two double quotes. *)
Definition quotePlain (s : string) : string :=
  String "034"%char (s ++ String "034"%char "").

(** What [t.Error] and [t.Errorf] record on a [*testing.T]: an error value,
    or the text "the struct definition has changed, the hash is invalid".
    Neither call ends the test. *)
Inductive report : Type :=
| Reported (err : error)
| StructChanged.

(** The loop of [TestStructDefinition] over the field names; writing to the
    hasher never fails. *)
Fixpoint structualLoop {V} (fieldInfos : list (fieldInfo V)) (structualHash : Z) : Z :=
  match fieldInfos with
  | [] => structualHash
  | info :: rest => structualLoop rest (write64 structualHash (bytesOf (name info)))
  end.

(** [TestStructDefinition], the log of [t] passed through.  After an error of
    [getFieldInfos] the function goes on with the nil [fieldInfos]. *)
Definition TestStructDefinition {V} (t : list report) (obj : object V)
    (expectedHash : byteSlice) : outcome (list report) :=
  r <-! getFieldInfos obj;
  let '(fieldInfos, t) :=
    match r with
    | Fail err => ([], t ++ [Reported err])
    | Ret fieldInfos => (fieldInfos, t)
    end in
  let structualHash := structualLoop fieldInfos offset64 in
  head8 <-! sliceTo expectedHash 8;
  expected <-! uint64FromSlice (elems head8);
  if negb (structualHash =? expected) then Returns (t ++ [StructChanged])
  else Returns t.

(** The bytes of the sorted tags of a struct, one after the other. *)
Definition tagBytes {V} (fields : list (structField V)) : list Z :=
  concat (List.map (fun info => bytesOf (name info)) (sortByName (List.map infoOf fields))).

(** A struct with the one tag "ab" and a struct with the tags "a" and "b". *)
Definition oneTag : list (structField string) := [ tagged "ab" "(*int)0" ].

Definition twoTags : list (structField string) :=
  [ tagged "a" "(*int)0"; tagged "b" "(*int)0" ].

(** The first two fields of [test1] with the second one unexported, the
    same after a change of [Field1], and the same two fields declared the
    other way round and both exported. *)
Definition withUnexported : list (structField string) :=
  [ tagged "Field1" "(*string)test1"; unexported "field2" "(*string)test2" ].

Definition withUnexportedChanged : list (structField string) :=
  [ tagged "Field1" "(*string)Field1 changed"; unexported "field2" "(*string)test2" ].

Definition allExported : list (structField string) :=
  [ StructField "Field2" "" [(tagName, "field2")] "(*string)test2";
    tagged "Field1" "(*string)test1" ].


(** The first three fields of [test1]. *)
Definition test1Short : list (structField string) :=
  [ tagged "Field1" "(*string)test1"; tagged "Field2" "(*string)test2";
    tagged "Field3" "(*string)test3" ].

(** ** Proof automation *)

(** Settles every comparison of the goal that linear arithmetic decides. *)
Ltac decide_cmp :=
  repeat match goal with
    | |- context [?a <=? ?b] =>
        first [ rewrite (proj2 (Z.leb_le a b)) by lia
              | rewrite (proj2 (Z.leb_gt a b)) by lia ]
    | |- context [?a <? ?b] =>
        first [ rewrite (proj2 (Z.ltb_lt a b)) by lia
              | rewrite (proj2 (Z.ltb_ge a b)) by lia ]
    end.

(** Equations between XOR expressions, bit by bit. *)
Ltac xor_bits :=
  apply Z.bits_inj'; intros ?n ?Hn; rewrite ?Z.lxor_spec, ?Z.bits_0;
  repeat match goal with
    | |- context [Z.testbit ?a ?n] => destruct (Z.testbit a n)
    end;
  reflexivity.

(** * Properties *)

(** ** Machine integers and the codec *)

Lemma testbit_uint (w x n : Z) :
  0 <= w -> Z.testbit (x mod 2 ^ w) n = (n <? w) && Z.testbit x n.
Proof.
  intros Hw. destruct (Z.ltb_spec n w) as [Hlt | Hge]; simpl.
  - destruct (Z.neg_nonneg_cases n) as [Hneg | Hpos].
    + now rewrite !Z.testbit_neg_r.
    + apply Z.mod_pow2_bits_low; lia.
  - apply Z.mod_pow2_bits_high; lia.
Qed.

Lemma testbit_small (w x n : Z) :
  0 <= x < 2 ^ w -> w <= n -> Z.testbit x n = false.
Proof.
  intros Hx Hn. destruct (Z.eq_dec x 0) as [-> | Hne].
  - apply Z.bits_0.
  - apply Z.bits_above_log2; [lia |].
    assert (Z.log2 x < w); [| lia].
    apply Z.log2_lt_pow2; lia.
Qed.

(** The byte [k] of [i], as [uint64ToSlice] and [uint32SliceToByteSlice]
    compute it. *)
Lemma testbit_byteAt (i s n : Z) :
  0 <= s -> 0 <= n ->
  Z.testbit (byte (Z.land 255 (Z.shiftr i s))) n = (n <? 8) && Z.testbit i (n + s).
Proof.
  intros Hs Hn. unfold byte. rewrite testbit_uint by lia.
  destruct (Z.ltb_spec n 8) as [Hlt | Hge]; simpl; [| reflexivity].
  rewrite Z.land_spec, Z.shiftr_spec by lia.
  change 255 with (Z.ones 8). rewrite Z.testbit_ones_nonneg by lia.
  destruct (Z.ltb_spec n 8); [reflexivity | lia].
Qed.

Lemma testbit_placed (w b s n : Z) :
  0 <= s -> 0 <= n -> 0 <= w ->
  Z.testbit ((Z.shiftl b s) mod 2 ^ w) n = (n <? w) && (s <=? n) && Z.testbit b (n - s).
Proof.
  intros Hs Hn Hw. rewrite testbit_uint by lia.
  rewrite Z.shiftl_spec by lia.
  destruct (Z.leb_spec s n); simpl.
  - now rewrite andb_true_r.
  - rewrite Z.testbit_neg_r by lia. now rewrite andb_false_r.
Qed.

Lemma isByte_byte (x : Z) : isByte (byte x).
Proof. unfold isByte, byte. apply Z.mod_pos_bound. lia. Qed.

Lemma isUint32_uint32 (x : Z) : isUint32 (uint32 x).
Proof. unfold isUint32, uint32. apply Z.mod_pos_bound. lia. Qed.

Lemma isUint64_uint64 (x : Z) : isUint64 (uint64 x).
Proof. unfold isUint64, uint64. apply Z.mod_pos_bound. lia. Qed.

(** Byte [s/8] of [i], put back in its place in a [w]-bit word. *)
Lemma testbit_byte_placed (w i s n : Z) :
  0 <= s -> 0 <= n -> s + 8 <= w ->
  Z.testbit ((Z.shiftl (byte (Z.land 255 (Z.shiftr i s))) s) mod 2 ^ w) n
  = (s <=? n) && (n <? s + 8) && Z.testbit i n.
Proof.
  intros Hs Hn Hw. rewrite testbit_placed by lia.
  destruct (Z.leb_spec s n) as [Hle | Hgt]; simpl.
  - rewrite testbit_byteAt by lia. replace (n - s + s) with n by lia.
    destruct (Z.ltb_spec (n - s) 8), (Z.ltb_spec n (s + 8)), (Z.ltb_spec n w);
      simpl; try reflexivity; lia.
  - now rewrite andb_false_r.
Qed.

Lemma uint64FromSlice_uint64ToSlice (i : Z) (rest : list Z) :
  isUint64 i -> uint64FromSlice (uint64ToSlice i ++ rest) = Returns i.
Proof.
  intros Hi. unfold uint64FromSlice, uint64ToSlice, index. simpl. f_equal.
  apply Z.bits_inj'. intros n Hn.
  unfold uint64. rewrite !Z.lor_spec, !testbit_byte_placed by lia.
  rewrite Z.bits_0.
  destruct (Z.ltb_spec n 64) as [Hlt | Hge].
  - destruct (Z.testbit i n); [| rewrite !andb_false_r; reflexivity].
    rewrite !andb_true_r.
    assert (n < 8 \/ 8 <= n < 16 \/ 16 <= n < 24 \/ 24 <= n < 32 \/ 32 <= n < 40
            \/ 40 <= n < 48 \/ 48 <= n < 56 \/ 56 <= n < 64) as Hcases by lia.
    decompose [or] Hcases; decide_cmp; reflexivity.
  - rewrite (testbit_small 64 i n) by (auto; lia).
    rewrite !andb_false_r. reflexivity.
Qed.

Lemma uint32_of_bytes (w : Z) :
  isUint32 w ->
  Z.lor (Z.lor (Z.lor
    (uint32 (Z.shiftl (byte (Z.land 255 (Z.shiftr w 0))) 0))
    (uint32 (Z.shiftl (byte (Z.land 255 (Z.shiftr w 8))) 8)))
    (uint32 (Z.shiftl (byte (Z.land 255 (Z.shiftr w 16))) 16)))
    (uint32 (Z.shiftl (byte (Z.land 255 (Z.shiftr w 24))) 24)) = w.
Proof.
  intros Hw. apply Z.bits_inj'. intros n Hn.
  unfold uint32. rewrite !Z.lor_spec, !testbit_byte_placed by lia.
  destruct (Z.ltb_spec n 32) as [Hlt | Hge].
  - destruct (Z.testbit w n); [| rewrite !andb_false_r; reflexivity].
    rewrite !andb_true_r.
    assert (n < 8 \/ 8 <= n < 16 \/ 16 <= n < 24 \/ 24 <= n < 32) as Hcases by lia.
    decompose [or] Hcases; decide_cmp; reflexivity.
  - rewrite (testbit_small 32 w n) by (auto; lia).
    rewrite !andb_false_r. reflexivity.
Qed.

Lemma length_uint32SliceToByteSlice (ws : list Z) :
  length (uint32SliceToByteSlice ws) = (4 * length ws)%nat.
Proof. induction ws as [| w ws IH]; simpl; [reflexivity | rewrite IH; lia]. Qed.

Lemma length_uint64ToSlice (i : Z) : length (uint64ToSlice i) = 8%nat.
Proof. reflexivity. Qed.

(** Decoding never leaves the slice: [out] has [len(s)/4] words and word
    [i] reads the bytes [4i .. 4i+3]. *)
Lemma fromByteLoop_returns (s : list Z) (n i : nat) :
  (4 * (i + n) <= length s)%nat ->
  exists out, fromByteLoop s i n = Returns out /\ length out = n.
Proof.
  revert i. induction n as [| n IH]; intros i Hlen; simpl.
  - exists []. split; reflexivity.
  - unfold index.
    destruct (lookup_lt_is_Some_2 s (i * 4 + 0)) as [b0 ->]; [lia |].
    destruct (lookup_lt_is_Some_2 s (i * 4 + 1)) as [b1 ->]; [lia |].
    destruct (lookup_lt_is_Some_2 s (i * 4 + 2)) as [b2 ->]; [lia |].
    destruct (lookup_lt_is_Some_2 s (i * 4 + 3)) as [b3 ->]; [lia |].
    simpl. destruct (IH (S i)) as (out & -> & Hout); [lia |].
    simpl. eexists. split; [reflexivity |]. simpl. now rewrite Hout.
Qed.

Lemma uint32SliceFromByteSlice_returns (s : list Z) :
  exists out, uint32SliceFromByteSlice s = Returns out
              /\ length out = (length s / 4)%nat.
Proof.
  unfold uint32SliceFromByteSlice. apply fromByteLoop_returns.
  pose proof (Nat.Div0.mul_div_le (length s) 4). lia.
Qed.

Lemma fromByteLoop_toBytes (pre ws rest : list Z) (i : nat) :
  length pre = (4 * i)%nat -> Forall isUint32 ws ->
  fromByteLoop (pre ++ uint32SliceToByteSlice ws ++ rest) i (length ws) = Returns ws.
Proof.
  revert pre i. induction ws as [| w ws IH]; intros pre i Hpre Hws; simpl.
  - reflexivity.
  - inversion Hws as [| ? ? Hw Hws']; subst.
    unfold index.
    rewrite !lookup_app_r by lia.
    replace (i * 4 + 0 - length pre)%nat with 0%nat by lia.
    replace (i * 4 + 1 - length pre)%nat with 1%nat by lia.
    replace (i * 4 + 2 - length pre)%nat with 2%nat by lia.
    replace (i * 4 + 3 - length pre)%nat with 3%nat by lia.
    simpl.
    specialize (IH (pre ++ [byte (Z.land 255 (Z.shiftr w 0));
                            byte (Z.land 255 (Z.shiftr w 8));
                            byte (Z.land 255 (Z.shiftr w 16));
                            byte (Z.land 255 (Z.shiftr w 24))]) (S i)).
    rewrite <- app_assoc in IH. simpl in IH. rewrite IH.
    + simpl. now rewrite uint32_of_bytes.
    + rewrite length_app. simpl. lia.
    + assumption.
Qed.

Lemma uint32SliceFromByteSlice_toBytes (ws : list Z) :
  Forall isUint32 ws ->
  uint32SliceFromByteSlice (uint32SliceToByteSlice ws) = Returns ws.
Proof.
  intros Hws. unfold uint32SliceFromByteSlice.
  rewrite length_uint32SliceToByteSlice.
  replace (4 * length ws / 4)%nat with (length ws)
    by (rewrite Nat.mul_comm, Nat.div_mul; lia).
  pose proof (fromByteLoop_toBytes [] ws [] 0) as H. simpl in H.
  rewrite app_nil_r in H. now apply H.
Qed.

(** ** The Hamming code: loops and lookups *)

Lemma log2_up_half (x : Z) :
  0 < x -> Z.log2_up (Z.shiftr x 1 + 1) = Z.log2_up (x + 1) - 1.
Proof.
  intros Hx. rewrite Z.shiftr_div_pow2 by lia. change (2 ^ 1) with 2.
  rewrite (Z.log2_up_eqn (x + 1)) by lia.
  replace (Z.pred (x + 1)) with x by lia.
  destruct (Z.eq_dec x 1) as [-> | Hne].
  - reflexivity.
  - assert (0 < x / 2) by (apply Z.div_str_pos; lia).
    rewrite (Z.log2_up_eqn (x / 2 + 1)) by lia.
    replace (Z.pred (x / 2 + 1)) with (x / 2) by lia.
    rewrite <- Z.div2_div, Z.div2_spec, Z.log2_shiftr by lia.
    pose proof (Z.log2_pos x). lia.
Qed.

Lemma log2_up_bound (x w : Z) :
  0 <= w -> 0 <= x < 2 ^ w -> 0 <= Z.log2_up (x + 1) <= w.
Proof.
  intros Hw Hx. split; [apply Z.log2_up_nonneg |].
  apply Z.le_trans with (Z.log2_up (2 ^ w)).
  - apply Z.log2_up_le_mono. lia.
  - rewrite Z.log2_up_pow2; lia.
Qed.

Lemma log2Loop_spec (fuel : nat) (x r : Z) :
  0 <= x < 2 ^ Z.of_nat fuel -> 0 <= r -> r + Z.log2_up (x + 1) < 2 ^ 32 ->
  log2Loop fuel x r = r + Z.log2_up (x + 1).
Proof.
  revert x r. induction fuel as [| fuel IH]; intros x r Hx Hr Hsum.
  - change (2 ^ Z.of_nat 0) with 1 in Hx. replace x with 0 by lia.
    change (Z.log2_up (0 + 1)) with 0. simpl. lia.
  - cbn [log2Loop]. destruct (Z.ltb_spec 0 x) as [Hpos | Hzero].
    + pose proof (log2_up_half x Hpos) as Hhalf.
      assert (0 <= Z.log2_up (Z.shiftr x 1 + 1)) by apply Z.log2_up_nonneg.
      assert (uint32 (r + 1) = r + 1) as ->
          by (unfold uint32; apply Z.mod_small; lia).
      rewrite IH; [lia | | lia | lia].
      rewrite Z.shiftr_div_pow2 by lia. change (2 ^ 1) with 2.
      rewrite Nat2Z.inj_succ, Z.pow_succ_r in Hx by lia.
      split; [apply Z.div_pos; lia |].
      apply Z.div_lt_upper_bound; lia.
    + replace x with 0 by lia. change (Z.log2_up (0 + 1)) with 0. lia.
Qed.

Lemma log2OfXPlusOne_spec (x : Z) :
  isUint32 x -> log2OfXPlusOne x = Z.log2_up (x + 1).
Proof.
  intros Hx. unfold log2OfXPlusOne.
  pose proof (log2_up_bound x 32 ltac:(lia) Hx).
  rewrite log2Loop_spec; [lia | exact Hx | lia | lia].
Qed.

(** The loop of [log2OfXPlusOne] has ended when the fuel of the embedding
    runs out: any larger amount gives the same result. *)
Lemma log2Loop_fuel (fuel : nat) (x : Z) :
  isUint32 x -> (32 <= fuel)%nat -> log2Loop fuel x 0 = log2OfXPlusOne x.
Proof.
  intros Hx Hfuel. rewrite log2OfXPlusOne_spec by assumption.
  pose proof (log2_up_bound x 32 ltac:(lia) Hx).
  rewrite log2Loop_spec; [lia | | lia | lia].
  unfold isUint32 in Hx. split; [lia |].
  apply Z.lt_le_trans with (2 ^ 32); [lia |].
  apply Z.pow_le_mono_r; lia.
Qed.

Lemma log2OfXPlusOne_range (x : Z) : isUint32 x -> 0 <= log2OfXPlusOne x <= 32.
Proof.
  intros Hx. rewrite log2OfXPlusOne_spec by assumption.
  now apply log2_up_bound.
Qed.

Lemma land_bit (a i : Z) :
  0 <= i -> (Z.land a (Z.shiftl 1 i) =? 0) = negb (Z.testbit a i).
Proof.
  intros Hi. rewrite Z.shiftl_1_l.
  destruct (Z.testbit a i) eqn:Hbit; simpl.
  - apply Z.eqb_neq. intros Hzero.
    assert (Z.testbit (Z.land a (2 ^ i)) i = false) as Hc
        by (rewrite Hzero; apply Z.bits_0).
    rewrite Z.land_spec, Hbit, Z.pow2_bits_true in Hc by lia. discriminate.
  - apply Z.eqb_eq. apply Z.bits_inj'. intros n Hn.
    rewrite Z.land_spec, Z.bits_0, Z.pow2_bits_eqb by lia.
    destruct (Z.eqb_spec i n) as [-> | Hne].
    + now rewrite Hbit.
    + apply andb_false_r.
Qed.

Lemma length_xorParity (id field i : Z) (codes : list Z) :
  length (xorParity id field i codes) = length codes.
Proof. revert i. induction codes as [| c codes IH]; intros i; simpl; auto. Qed.

Lemma length_hammingLoop (id : Z) (fields codes : list Z) :
  length (hammingLoop id fields codes) = length codes.
Proof.
  revert id codes. induction fields as [| f fields IH]; intros id codes; simpl.
  - reflexivity.
  - now rewrite IH, length_xorParity.
Qed.

Lemma lookup_xorParity (id field i : Z) (codes : list Z) (k : nat) :
  0 <= i ->
  xorParity id field i codes !! k
  = (fun c => if Z.testbit (id + 1) (i + Z.of_nat k) then Z.lxor c field else c)
      <$> codes !! k.
Proof.
  revert i k. induction codes as [| c codes IH]; intros i k Hi; simpl.
  - now rewrite lookup_nil.
  - destruct k as [| k]; simpl.
    + rewrite land_bit by lia. replace (i + Z.of_nat 0) with i by lia.
      now destruct (Z.testbit (id + 1) i).
    + rewrite IH by lia.
      replace (i + 1 + Z.of_nat k) with (i + Z.of_nat (S k)) by lia. reflexivity.
Qed.

(** What the two nested loops leave in [parityCodes[k]]. *)
Lemma lookup_hammingLoop (id : Z) (fields codes : list Z) (k : nat) :
  hammingLoop id fields codes !! k
  = (fun c => Z.lxor c (xorSelected (Z.of_nat k) (id + 1) fields)) <$> codes !! k.
Proof.
  revert id codes. induction fields as [| f fields IH]; intros id codes; simpl.
  - destruct (codes !! k); simpl; [| reflexivity]. now rewrite Z.lxor_0_r.
  - rewrite IH, lookup_xorParity by lia. simpl.
    destruct (codes !! k) as [c |]; simpl; [| reflexivity]. f_equal.
    replace (0 + Z.of_nat k) with (Z.of_nat k) by lia.
    destruct (Z.testbit (id + 1) (Z.of_nat k)).
    + now rewrite Z.lxor_assoc.
    + now rewrite Z.lxor_0_l.
Qed.

Lemma length_calculateHammingCode (fields : list Z) :
  length (calculateHammingCode fields)
  = Z.to_nat (log2OfXPlusOne (uint32 (Z.of_nat (length fields)))).
Proof.
  unfold calculateHammingCode. now rewrite length_hammingLoop, length_replicate.
Qed.

Lemma lookup_calculateHammingCode (fields : list Z) (k : nat) :
  (k < length (calculateHammingCode fields))%nat ->
  calculateHammingCode fields !! k = Some (xorSelected (Z.of_nat k) 1 fields).
Proof.
  intros Hk. rewrite length_calculateHammingCode in Hk.
  unfold calculateHammingCode. rewrite lookup_hammingLoop.
  rewrite lookup_replicate_2 by exact Hk. reflexivity.
Qed.

Lemma testbit_one_shifted (i n : nat) :
  Z.testbit (uint32 (Z.shiftl 1 (Z.of_nat i))) (Z.of_nat n)
  = (Z.of_nat n <? 32) && Nat.eqb i n.
Proof.
  unfold uint32. rewrite testbit_uint, Z.shiftl_1_l, Z.pow2_bits_eqb by lia.
  f_equal. destruct (Nat.eqb_spec i n) as [-> | Hne].
  - apply Z.eqb_refl.
  - apply Z.eqb_neq. lia.
Qed.

(** The loop of [findErrorLocation] stays inside [expectedCode] when the
    stored code is not longer, and sets bit [k] of the location exactly when
    the stored word [k] differs from the expected one. *)
Lemma locateLoop_returns (expectedCode rest : list Z) (i : nat) (acc : Z) :
  (i + length rest <= length expectedCode)%nat ->
  exists loc,
    locateLoop i rest expectedCode acc = Returns loc
    /\ forall n : nat,
        Z.testbit loc (Z.of_nat n)
        = Z.testbit acc (Z.of_nat n)
          || ((Z.of_nat n <? 32) && (i <=? n)%nat
              && match rest !! (n - i)%nat, expectedCode !! n with
                 | Some a, Some b => negb (a =? b)
                 | _, _ => false
                 end).
Proof.
  revert i acc. induction rest as [| h rest IH]; intros i acc Hlen.
  - exists acc. split; [reflexivity |]. intros n.
    rewrite lookup_nil, andb_false_r. now rewrite orb_false_r.
  - simpl in Hlen. cbn [locateLoop]. unfold index.
    destruct (lookup_lt_is_Some_2 expectedCode i) as [e He]; [lia |].
    rewrite He. cbn [obind].
    destruct (IH (S i)
                (if h =? e then acc
                 else Z.lor acc (uint32 (Z.shiftl 1 (Z.of_nat i)))))
      as (loc & Hloc & Hbits); [lia |].
    exists loc. split; [exact Hloc |]. intros n. rewrite Hbits.
    assert (Z.testbit (if h =? e then acc
                       else Z.lor acc (uint32 (Z.shiftl 1 (Z.of_nat i))))
              (Z.of_nat n)
            = Z.testbit acc (Z.of_nat n)
              || ((Z.of_nat n <? 32) && Nat.eqb i n && negb (h =? e))) as ->.
    { destruct (h =? e); simpl.
      - now rewrite andb_false_r, orb_false_r.
      - now rewrite Z.lor_spec, testbit_one_shifted, andb_true_r. }
    destruct (Nat.eqb_spec i n) as [-> | Hne].
    + rewrite (proj2 (Nat.leb_gt (S n) n)) by lia.
      rewrite (proj2 (Nat.leb_le n n)) by lia.
      replace (n - n)%nat with 0%nat by lia.
      change ((h :: rest) !! 0%nat) with (Some h). rewrite He.
      rewrite andb_false_r, !andb_true_r, andb_false_l, orb_false_r. reflexivity.
    + rewrite andb_false_r, andb_false_l, orb_false_r.
      destruct (Nat.leb_spec (S i) n) as [Hle | Hgt].
      * rewrite (proj2 (Nat.leb_le i n)) by lia.
        replace (n - i)%nat with (S (n - S i)) by lia. reflexivity.
      * rewrite (proj2 (Nat.leb_gt i n)) by lia.
        rewrite !andb_false_r, !andb_false_l. reflexivity.
Qed.

Lemma locateLoop_bits (stored expectedCode : list Z) :
  (length stored <= length expectedCode)%nat ->
  exists loc,
    locateLoop 0 stored expectedCode 0 = Returns loc
    /\ forall n : nat,
        Z.testbit loc (Z.of_nat n)
        = (Z.of_nat n <? 32) && differsAt stored expectedCode n.
Proof.
  intros Hlen.
  destruct (locateLoop_returns expectedCode stored 0 0) as (loc & Hloc & Hbits);
    [simpl; lia |].
  exists loc. split; [exact Hloc |]. intros n. rewrite Hbits, Z.bits_0.
  simpl. rewrite andb_true_r. unfold differsAt.
  now replace (n - 0)%nat with n by lia.
Qed.

(** The loop panics as soon as the stored code is longer than the expected
    one. *)
Lemma locateLoop_panics (expectedCode rest : list Z) (i : nat) (acc : Z) :
  (i <= length expectedCode < i + length rest)%nat ->
  locateLoop i rest expectedCode acc = Panics.
Proof.
  revert i acc. induction rest as [| h rest IH]; intros i acc Hlen.
  - simpl in Hlen. lia.
  - cbn [locateLoop]. unfold index.
    destruct (expectedCode !! i) as [e |] eqn:He; [| reflexivity].
    apply lookup_lt_Some in He. cbn [obind]. apply IH. simpl in Hlen. lia.
Qed.

Lemma locateLoop_range (stored expectedCode : list Z) (loc : Z) :
  locateLoop 0 stored expectedCode 0 = Returns loc ->
  (length stored <= length expectedCode)%nat ->
  isUint32 loc.
Proof.
  intros Hloc Hlen.
  destruct (locateLoop_bits stored expectedCode Hlen) as (loc' & Hloc' & Hbits).
  rewrite Hloc in Hloc'. injection Hloc' as <-.
  assert (0 <= loc) as Hnonneg.
  { apply Z.bits_iff_nonneg_ex. exists 32. intros m Hm.
    replace m with (Z.of_nat (Z.to_nat m)) by lia. rewrite Hbits.
    rewrite (proj2 (Z.ltb_ge _ _)) by lia. reflexivity. }
  split; [exact Hnonneg |].
  destruct (Z.eq_dec loc 0) as [-> | Hne]; [lia |].
  apply Z.log2_lt_pow2; [lia |].
  destruct (Z.lt_ge_cases (Z.log2 loc) 32) as [Hlt | Hge]; [exact Hlt |].
  pose proof (Z.bit_log2 loc ltac:(lia)) as Hbit.
  replace (Z.log2 loc) with (Z.of_nat (Z.to_nat (Z.log2 loc))) in Hbit by lia.
  rewrite Hbits in Hbit.
  rewrite (proj2 (Z.ltb_ge _ _)) in Hbit by lia. discriminate.
Qed.

(** [findErrorLocation] returns whenever the stored code is not longer than
    the recomputed one, and a location it finds is the index of a field. *)
Lemma findErrorLocation_returns (fields hammingCode : list Z) :
  (length hammingCode <= length (calculateHammingCode fields))%nat ->
  exists found location,
    findErrorLocation fields hammingCode = Returns (found, location)
    /\ (found = true -> 0 <= location < Z.of_nat (length fields)).
Proof.
  intros Hlen. unfold findErrorLocation.
  destruct (locateLoop_bits hammingCode (calculateHammingCode fields) Hlen)
    as (loc & Hloc & Hbits).
  pose proof (locateLoop_range _ _ _ Hloc Hlen) as Hrange.
  rewrite Hloc. cbn [obind].
  destruct (Z.eqb_spec loc 0) as [Hz | Hnz]; simpl.
  - exists false, 0. split; [reflexivity | discriminate].
  - destruct (Z.ltb_spec (uint32 (Z.of_nat (length fields))) loc) as [Hgt | Hle].
    + exists false, 0. split; [reflexivity | discriminate].
    + exists true, (uint32 (loc - 1)). split; [reflexivity |]. intros _.
      unfold isUint32 in Hrange.
      assert (uint32 (Z.of_nat (length fields)) <= Z.of_nat (length fields)).
      { unfold uint32. apply Z.mod_le; lia. }
      unfold uint32 in *. rewrite Z.mod_small by lia. lia.
Qed.

(** ** Localising one changed checksum *)

Lemma lxor_cancel (a d : Z) : Z.lxor a d = a <-> d = 0.
Proof.
  split.
  - intros H. assert (Z.lxor a (Z.lxor a d) = Z.lxor a a) as Hx by now rewrite H.
    now rewrite <- Z.lxor_assoc, Z.lxor_nilpotent, Z.lxor_0_l in Hx.
  - intros ->. apply Z.lxor_0_r.
Qed.

Lemma xorSelected_insert (k pos : Z) (old : list Z) (i : nat) (u v : Z) :
  old !! i = Some u ->
  xorSelected k pos (<[i := v]> old)
  = Z.lxor (xorSelected k pos old)
      (if Z.testbit (pos + Z.of_nat i) k then Z.lxor u v else 0).
Proof.
  revert pos i. induction old as [| x old IH]; intros pos i Hu.
  - rewrite lookup_nil in Hu. discriminate.
  - destruct i as [| i]; simpl in *.
    + injection Hu as ->. replace (pos + Z.of_nat 0) with pos by lia.
      destruct (Z.testbit pos k).
      * xor_bits.
      * now rewrite Z.lxor_0_r.
    + rewrite (IH (pos + 1) i Hu), Z.lxor_assoc.
      now replace (pos + 1 + Z.of_nat i) with (pos + Z.pos (Pos.of_succ_nat i)) by lia.
Qed.

Lemma parityCount_fits (n : nat) : Z.of_nat n < 2 ^ parityCount n.
Proof.
  unfold parityCount. destruct n as [| n].
  - reflexivity.
  - pose proof (Z.log2_up_spec (Z.of_nat (S n) + 1) ltac:(lia)). lia.
Qed.

Lemma parityCount_range (n : nat) :
  Z.of_nat n < 2 ^ 32 -> 0 <= parityCount n <= 32.
Proof. intros Hn. unfold parityCount. apply log2_up_bound; lia. Qed.

Lemma hammingCode_length_parityCount (fields : list Z) :
  Z.of_nat (length fields) < 2 ^ 32 ->
  length (calculateHammingCode fields) = Z.to_nat (parityCount (length fields)).
Proof.
  intros Hn. rewrite length_calculateHammingCode.
  assert (uint32 (Z.of_nat (length fields)) = Z.of_nat (length fields)) as ->
      by (unfold uint32; apply Z.mod_small; lia).
  rewrite log2OfXPlusOne_spec by (unfold isUint32; lia). reflexivity.
Qed.

(** When exactly the checksum at index [i] differs between the vector that
    was encoded and the current one, the location found is [i]. *)
Lemma findErrorLocation_single (old : list Z) (i : nat) (u v : Z) :
  Z.of_nat (length old) < 2 ^ 32 ->
  old !! i = Some u -> u <> v ->
  findErrorLocation (<[i := v]> old) (calculateHammingCode old)
  = Returns (true, Z.of_nat i).
Proof.
  intros Hn Hu Hne. set (new := <[i := v]> old).
  assert (length new = length old) as Hlen by apply length_insert.
  assert (i < length old)%nat as Hi by (eapply lookup_lt_Some; eauto).
  pose proof (hammingCode_length_parityCount old Hn) as Hpo.
  assert (length (calculateHammingCode new) = Z.to_nat (parityCount (length old)))
    as Hpn by (rewrite hammingCode_length_parityCount; rewrite Hlen; auto).
  pose proof (parityCount_range _ Hn) as Hp.
  pose proof (parityCount_fits (length old)) as Hfit.
  unfold findErrorLocation. fold new.
  destruct (locateLoop_bits (calculateHammingCode old) (calculateHammingCode new))
    as (loc & Hloc & Hbits); [lia |].
  rewrite Hloc. cbn [obind].
  assert (loc = Z.of_nat i + 1) as ->.
  { apply Z.bits_inj'. intros m Hm.
    replace m with (Z.of_nat (Z.to_nat m)) by lia. rewrite Hbits.
    unfold differsAt.
    destruct (Nat.lt_ge_cases (Z.to_nat m) (Z.to_nat (parityCount (length old))))
      as [Hlt | Hge].
    - rewrite !lookup_calculateHammingCode by lia.
      unfold new. rewrite (xorSelected_insert _ _ _ _ u v Hu).
      rewrite (proj2 (Z.ltb_lt _ _)) by lia. simpl.
      replace (1 + Z.of_nat i) with (Z.of_nat i + 1) by lia.
      destruct (Z.testbit (Z.of_nat i + 1) (Z.of_nat (Z.to_nat m))).
      + apply negb_true_iff, Z.eqb_neq. intros Heq. symmetry in Heq.
        apply lxor_cancel, Z.lxor_eq in Heq. contradiction.
      + rewrite Z.lxor_0_r, Z.eqb_refl. reflexivity.
    - rewrite (lookup_ge_None_2 (calculateHammingCode old)) by lia.
      rewrite andb_false_r. symmetry.
      apply (testbit_small (parityCount (length old))); lia. }
  assert (uint32 (Z.of_nat (length new)) = Z.of_nat (length old)) as ->
      by (rewrite Hlen; unfold uint32; apply Z.mod_small; lia).
  rewrite (proj2 (Z.eqb_neq _ _)) by lia.
  rewrite (proj2 (Z.ltb_ge _ _)) by lia. simpl.
  replace (Z.of_nat i + 1 - 1) with (Z.of_nat i) by lia.
  unfold uint32. rewrite Z.mod_small by lia. reflexivity.
Qed.

(** ** The order of field names *)

Lemma ltb_lt (a b : string) : String.ltb a b = true <-> String_as_OT.lt a b.
Proof.
  unfold String.ltb. rewrite <- String_as_OT.cmp_lt. unfold String_as_OT.cmp.
  destruct (String.compare a b); split; congruence.
Qed.

Lemma ltb_trans (a b c : string) :
  String.ltb a b = true -> String.ltb b c = true -> String.ltb a c = true.
Proof. rewrite !ltb_lt. apply String_as_OT.lt_trans. Qed.

Lemma ltb_irrefl (a : string) : String.ltb a a = false.
Proof.
  destruct (String.ltb a a) eqn:H; [| reflexivity].
  apply ltb_lt, String_as_OT.lt_not_eq in H. now contradiction H.
Qed.

Lemma ltb_asym (a b : string) : String.ltb a b = true -> String.ltb b a = false.
Proof.
  intros Hab. destruct (String.ltb b a) eqn:Hba; [| reflexivity].
  pose proof (ltb_trans _ _ _ Hab Hba) as H. now rewrite ltb_irrefl in H.
Qed.

Lemma ltb_total (a b : string) :
  a <> b -> String.ltb a b = false -> String.ltb b a = true.
Proof.
  unfold String.ltb. intros Hne. rewrite (String.compare_antisym b a).
  destruct (String.compare a b) eqn:Hc; simpl; try congruence.
  apply String.compare_eq_iff in Hc. contradiction.
Qed.

Section Sorting.

Context {V : Type}.
Implicit Types (x y : fieldInfo V) (l : list (fieldInfo V)).

Lemma nameLt_trans x y z : nameLt x y -> nameLt y z -> nameLt x z.
Proof. unfold nameLt, less. apply ltb_trans. Qed.

Lemma insertByName_Permutation x l : insertByName x l ≡ₚ x :: l.
Proof.
  induction l as [| y l IH]; simpl; [reflexivity |].
  destruct (less y x); [| reflexivity].
  rewrite IH. apply perm_swap.
Qed.

Lemma sortByName_Permutation l : sortByName l ≡ₚ l.
Proof.
  induction l as [| x l IH]; simpl; [reflexivity |].
  now rewrite insertByName_Permutation, IH.
Qed.

Lemma length_sortByName l : length (sortByName l) = length l.
Proof. apply Permutation_length, sortByName_Permutation. Qed.

Lemma insertByName_sorted x l :
  name x ∉ List.map name l ->
  StronglySorted nameLt l -> StronglySorted nameLt (insertByName x l).
Proof.
  intros Hfresh Hl. induction Hl as [| y l Hl IH Hy]; simpl.
  - repeat constructor.
  - assert (name x <> name y) as Hne by (intros Heq; apply Hfresh; simpl; rewrite Heq; left).
    assert (name x ∉ List.map name l) as Hfresh'
        by (intros Hin; apply Hfresh; simpl; right; exact Hin).
    destruct (less y x) eqn:Hyx.
    + constructor; [now apply IH |].
      rewrite insertByName_Permutation. constructor; assumption.
    + assert (nameLt x y) as Hxy by (apply ltb_total; auto).
      constructor; [constructor; assumption |].
      constructor; [exact Hxy |].
      eapply Forall_impl; [exact Hy |]. intros z Hz. eapply nameLt_trans; eauto.
Qed.

Lemma sortByName_sorted l :
  NoDup (List.map name l) -> StronglySorted nameLt (sortByName l).
Proof.
  induction l as [| x l IH]; simpl; intros Hnd.
  - constructor.
  - apply NoDup_cons in Hnd as [Hx Hnd].
    apply insertByName_sorted; [| now apply IH].
    now rewrite sortByName_Permutation.
Qed.

(** Whatever algorithm [sort.Slice] runs, on distinct names it can only
    return what [sortByName] returns. *)
Lemma sortByName_unique l l' :
  NoDup (List.map name l) ->
  l' ≡ₚ l -> StronglySorted nameLt l' -> l' = sortByName l.
Proof.
  intros Hnd Hperm Hsorted.
  apply (StronglySorted_unique_strong nameLt).
  - intros a b _ _ Hab Hba. unfold nameLt, less in *.
    apply ltb_asym in Hab. congruence.
  - exact Hsorted.
  - now apply sortByName_sorted.
  - now rewrite Hperm, sortByName_Permutation.
Qed.

Lemma sortByName_permuted l l' :
  NoDup (List.map name l) -> l ≡ₚ l' -> sortByName l' = sortByName l.
Proof.
  intros Hnd Hperm. apply sortByName_unique.
  - exact Hnd.
  - now rewrite sortByName_Permutation.
  - apply sortByName_sorted. now rewrite <- Hperm.
Qed.

End Sorting.

(** Sorting looks at names only: it commutes with any change of the values
    that keeps the names. *)
Lemma insertByName_map {V W} (g : fieldInfo V -> fieldInfo W) x l :
  (forall y, name (g y) = name y) ->
  insertByName (g x) (List.map g l) = List.map g (insertByName x l).
Proof.
  intros Hg. induction l as [| y l IH]; simpl; [reflexivity |].
  unfold less. rewrite !Hg. destruct (String.ltb (name y) (name x)); simpl.
  - now rewrite IH.
  - reflexivity.
Qed.

Lemma sortByName_map {V W} (g : fieldInfo V -> fieldInfo W) l :
  (forall y, name (g y) = name y) ->
  sortByName (List.map g l) = List.map g (sortByName l).
Proof.
  intros Hg. induction l as [| x l IH]; simpl; [reflexivity |].
  now rewrite IH, insertByName_map.
Qed.

(** ** getFieldInfos *)

(** A tag that is absent and a tag that is present with an empty value read
    the same. *)
Lemma Get_missing (tag : StructTag) (key : string) :
  key ∉ List.map fst tag -> Get tag key = "".
Proof.
  induction tag as [| [k v] tag IH]; intros Hkey; simpl; [reflexivity |].
  destruct (String.eqb_spec k key) as [-> | _].
  - exfalso. apply Hkey. simpl. left.
  - apply IH. intros Hin. apply Hkey. simpl. now right.
Qed.

Lemma Get_first (tag : StructTag) (key v : string) :
  Get ((key, v) :: tag) key = v.
Proof. simpl. now rewrite String.eqb_refl. Qed.

Section FieldInfos.

Context {V : Type}.
Implicit Types (fields : list (structField V)) (tags : gset string).

Lemma map_name_infoOf fields :
  List.map name (List.map infoOf fields) = List.map tagOf fields.
Proof. induction fields as [| f fields IH]; simpl; [| rewrite IH]; reflexivity. Qed.

Lemma Interface_exported (f : structField V) :
  PkgPath f = "" -> Interface f = Returns (Value f).
Proof. intros Hf. unfold Interface. now rewrite Hf. Qed.

Lemma Interface_unexported (f : structField V) :
  PkgPath f <> "" -> Interface f = Panics.
Proof.
  intros Hf. unfold Interface.
  now destruct (String.eqb_spec (PkgPath f) "").
Qed.

Lemma collectFields_wellFormed fields tags (acc : list (fieldInfo V)) :
  Forall (fun f => tagOf f <> "") fields ->
  NoDup (List.map tagOf fields) ->
  (forall t, t ∈ List.map tagOf fields -> t ∉ tags) ->
  exportedFields fields ->
  collectFields fields tags acc = Returns (Ret (acc ++ List.map infoOf fields)).
Proof.
  revert tags acc.
  induction fields as [| f fields IH]; intros tags acc Hne Hnd Hfresh Hex.
  - simpl. now rewrite app_nil_r.
  - simpl. fold (tagOf f).
    apply Forall_cons in Hne as [Hf Hne]. simpl in Hnd.
    apply NoDup_cons in Hnd as [Hnotin Hnd].
    apply Forall_cons in Hex as [Hexf Hex].
    destruct (String.eqb_spec (tagOf f) "") as [Hempty | _]; [contradiction |].
    destruct (decide (tagOf f ∈ tags)) as [Hin | _].
    { exfalso. apply (Hfresh (tagOf f)); [simpl; left | exact Hin]. }
    rewrite Interface_exported by exact Hexf. cbn [obind].
    rewrite IH; [| assumption | assumption | | assumption].
    + now rewrite <- app_assoc.
    + intros t Ht. rewrite elem_of_union, elem_of_singleton.
      intros [-> | Hin]; [contradiction |].
      apply (Hfresh t); [simpl; right; exact Ht | exact Hin].
Qed.

Lemma collectFields_Ret fields tags (acc fieldInfos : list (fieldInfo V)) :
  collectFields fields tags acc = Returns (Ret fieldInfos) ->
  Forall (fun f => tagOf f <> "") fields
  /\ NoDup (List.map tagOf fields)
  /\ (forall t, t ∈ List.map tagOf fields -> t ∉ tags)
  /\ exportedFields fields.
Proof.
  revert tags acc. induction fields as [| f fields IH]; intros tags acc Hret.
  - repeat split; [constructor | constructor | | constructor].
    intros t Ht. simpl in Ht. now apply elem_of_nil in Ht.
  - simpl in Hret. fold (tagOf f) in Hret.
    destruct (String.eqb_spec (tagOf f) "") as [| Hne]; [discriminate |].
    destruct (decide (tagOf f ∈ tags)) as [| Hnotin]; [discriminate |].
    unfold Interface in Hret.
    destruct (String.eqb_spec (PkgPath f) "") as [Hexf |]; [| discriminate].
    cbn [obind] in Hret.
    apply IH in Hret as (Hall & Hnd & Hfresh & Hex).
    repeat split.
    + constructor; assumption.
    + simpl. apply NoDup_cons. split; [| exact Hnd].
      intros Hin. apply (Hfresh _ Hin).
      apply elem_of_union. left. now apply elem_of_singleton.
    + intros t Ht. simpl in Ht. apply elem_of_cons in Ht as [-> | Ht].
      * exact Hnotin.
      * intros Hin. apply (Hfresh _ Ht). apply elem_of_union. now right.
    + constructor; assumption.
Qed.

(** The loop panics at the first unexported field it gets to with a tag
    that is not empty and not used before. *)
Lemma collectFields_Panics (good rest : list (structField V)) (f : structField V)
    tags (acc : list (fieldInfo V)) :
  Forall (fun g => tagOf g <> "") good ->
  NoDup (List.map tagOf good) ->
  (forall t, t ∈ List.map tagOf good -> t ∉ tags) ->
  exportedFields good ->
  tagOf f <> "" -> tagOf f ∉ List.map tagOf good -> tagOf f ∉ tags ->
  PkgPath f <> "" ->
  collectFields (good ++ f :: rest) tags acc = Panics.
Proof.
  revert tags acc.
  induction good as [| g good IH]; intros tags acc Hne Hnd Hfresh Hex Hf Hnew Htags Hun.
  - cbn [app collectFields]. fold (tagOf f).
    destruct (String.eqb_spec (tagOf f) "") as [| _]; [contradiction |].
    destruct (decide (tagOf f ∈ tags)); [contradiction |].
    now rewrite Interface_unexported.
  - cbn [app collectFields]. fold (tagOf g).
    apply Forall_cons in Hne as [Hg Hne]. cbn [List.map] in Hnd, Hnew.
    apply NoDup_cons in Hnd as [Hnotin Hnd].
    apply Forall_cons in Hex as [Hexg Hex].
    apply not_elem_of_cons in Hnew as [Hfg Hnew].
    destruct (String.eqb_spec (tagOf g) "") as [| _]; [contradiction |].
    destruct (decide (tagOf g ∈ tags)) as [Hin | _].
    { exfalso. apply (Hfresh (tagOf g)); [simpl; left | exact Hin]. }
    rewrite Interface_exported by exact Hexg. cbn [obind].
    apply IH; try assumption.
    + intros t Ht. rewrite elem_of_union, elem_of_singleton.
      intros [-> | Hin]; [contradiction |].
      apply (Hfresh t); [simpl; right; exact Ht | exact Hin].
    + rewrite elem_of_union, elem_of_singleton. intros [Heq | Hin]; auto.
Qed.

Lemma getFieldInfos_wellFormed fields :
  wellFormed fields -> exportedFields fields ->
  getFieldInfos (PointerToStruct fields)
  = Returns (Ret (sortByName (List.map infoOf fields))).
Proof.
  intros [Hne Hnd] Hex. simpl.
  rewrite (collectFields_wellFormed fields ∅ []); auto.
  intros t _. apply not_elem_of_empty.
Qed.

Lemma getFieldInfos_Ret (obj : object V) fieldInfos :
  getFieldInfos obj = Returns (Ret fieldInfos) ->
  exists fields,
    obj = PointerToStruct fields /\ wellFormed fields /\ exportedFields fields
    /\ fieldInfos = sortByName (List.map infoOf fields).
Proof.
  destruct obj as [| | fields]; simpl; try discriminate.
  destruct (collectFields fields ∅ []) as [[collected | e] |] eqn:Hc;
    try discriminate.
  intros [= <-]. exists fields.
  pose proof (collectFields_Ret _ _ _ _ Hc) as (Hne & Hnd & _ & Hex).
  assert (wellFormed fields) as Hwf by (split; assumption).
  repeat split; try assumption.
  pose proof (getFieldInfos_wellFormed fields Hwf Hex) as Hg. simpl in Hg.
  rewrite Hc in Hg. cbn [obind] in Hg. congruence.
Qed.

(** A struct with distinct non-empty tags and an unexported field makes
    [getFieldInfos] panic. *)
Lemma getFieldInfos_unexported fields :
  wellFormed fields -> ~ exportedFields fields ->
  getFieldInfos (PointerToStruct fields) = Panics.
Proof.
  intros [Hne Hnd] Hnot. cbn [getFieldInfos].
  assert (exists good f rest,
            fields = good ++ f :: rest /\ exportedFields good /\ PkgPath f <> "")
    as (good & f & rest & -> & Hgood & Hf).
  { clear Hne Hnd. induction fields as [| x fields IH].
    - exfalso. apply Hnot. constructor.
    - destruct (decide (PkgPath x = "")) as [Hx | Hx].
      + destruct IH as (good & f & rest & -> & Hgood & Hf).
        { intros Hex. apply Hnot. now constructor. }
        exists (x :: good), f, rest. repeat split; [now constructor | exact Hf].
      + exists [], x, fields. repeat split; [constructor | exact Hx]. }
  rewrite List.map_app in Hnd. cbn [List.map] in Hnd.
  apply NoDup_app in Hnd as (Hnd1 & Hdisj & Hnd2).
  apply Forall_app in Hne as [Hne1 Hne2]. apply Forall_cons in Hne2 as [Hnef _].
  rewrite (collectFields_Panics good rest f ∅ []); auto.
  - intros t _. apply not_elem_of_empty.
  - intros Hin. apply (Hdisj _ Hin). left.
  - apply not_elem_of_empty.
Qed.

Lemma getFieldInfos_length (obj : object V) fieldInfos fields :
  getFieldInfos obj = Returns (Ret fieldInfos) -> obj = PointerToStruct fields ->
  length fieldInfos = length fields.
Proof.
  intros Hg ->. apply getFieldInfos_Ret in Hg as (fields' & [= <-] & _ & _ & ->).
  now rewrite length_sortByName, length_map.
Qed.

Lemma getFieldInfos_NoDup fields :
  wellFormed fields -> NoDup (List.map name (List.map infoOf fields)).
Proof. intros [_ Hnd]. now rewrite map_name_infoOf. Qed.

End FieldInfos.

(** ** getHashes *)

Section Hashes.

Context {V : Type} (Fprintf : V -> list Z).

Lemma write32_app (h : Z) (a b : list Z) :
  write32 h (a ++ b) = write32 (write32 h a) b.
Proof. apply fold_left_app. Qed.

Lemma write64_app (h : Z) (a b : list Z) :
  write64 h (a ++ b) = write64 (write64 h a) b.
Proof. apply fold_left_app. Qed.

Lemma write32_range (h : Z) (data : list Z) :
  isUint32 h -> isUint32 (write32 h data).
Proof.
  revert h. induction data as [| c data IH]; intros h Hh; simpl; [exact Hh |].
  apply IH, isUint32_uint32.
Qed.

Lemma write64_range (h : Z) (data : list Z) :
  isUint64 h -> isUint64 (write64 h data).
Proof.
  revert h. induction data as [| c data IH]; intros h Hh; simpl; [exact Hh |].
  apply IH, isUint64_uint64.
Qed.

Lemma hashLoop_spec (fieldInfos : list (fieldInfo V)) (h : hashers) (acc : list Z) :
  hashLoop Fprintf fieldInfos h acc
  = (write64 (fullHash h) (concat (List.map (stream Fprintf) fieldInfos)),
     acc ++ List.map (checksum Fprintf) fieldInfos).
Proof.
  revert h acc. induction fieldInfos as [| info rest IH]; intros h acc.
  - simpl. now rewrite app_nil_r.
  - cbn [hashLoop List.map concat]. rewrite IH.
    unfold multiWrite, resetField. cbn [fullHash fieldHash]. f_equal.
    + unfold stream at 2. now rewrite !write64_app.
    + rewrite <- app_assoc. cbn [app]. do 2 f_equal.
      unfold checksum, stream. now rewrite write32_app.
Qed.

(** The full checksum hashes the concatenated streams of all fields, each
    field checksum the stream of its field alone. *)
Lemma getHashes_spec (fieldInfos : list (fieldInfo V)) :
  getHashes Fprintf fieldInfos
  = (fullChecksum Fprintf fieldInfos, List.map (checksum Fprintf) fieldInfos).
Proof. unfold getHashes. now rewrite hashLoop_spec. Qed.

Lemma fullChecksum_range (fieldInfos : list (fieldInfo V)) :
  isUint64 (fullChecksum Fprintf fieldInfos).
Proof. apply write64_range. unfold isUint64, offset64. lia. Qed.

Lemma checksum_range (info : fieldInfo V) : isUint32 (checksum Fprintf info).
Proof. apply write32_range. unfold isUint32, offset32. lia. Qed.

Lemma calculateHammingCode_range (fields : list Z) :
  Forall isUint32 fields -> Forall isUint32 (calculateHammingCode fields).
Proof.
  intros Hfields. unfold calculateHammingCode.
  generalize (Z.to_nat (log2OfXPlusOne (uint32 (Z.of_nat (length fields))))).
  intros p.
  assert (Forall isUint32 (replicate p 0)) as Hinit.
  { apply Forall_replicate. unfold isUint32. lia. }
  revert Hinit. generalize (replicate p 0) as codes. generalize 0 as id.
  induction Hfields as [| f fields Hf _ IH]; intros id codes Hcodes; simpl.
  - exact Hcodes.
  - apply IH. clear IH. generalize 0 as i.
    induction Hcodes as [| c codes Hc _ IHc]; intros i; simpl; constructor.
    + destruct (Z.land (id + 1) (Z.shiftl 1 i) =? 0); [exact Hc |].
      unfold isUint32 in *. split.
      * apply Z.lxor_nonneg. lia.
      * destruct (Z.eq_dec (Z.lxor c f) 0) as [-> | Hnz]; [lia |].
        assert (0 <= Z.lxor c f) by (apply Z.lxor_nonneg; lia).
        apply Z.log2_lt_pow2; [lia |].
        apply Z.le_lt_trans with (Z.max (Z.log2 c) (Z.log2 f)).
        -- apply Z.log2_lxor; lia.
        -- destruct (Z.eq_dec c 0) as [-> | Hc0], (Z.eq_dec f 0) as [-> | Hf0];
             simpl; try lia;
             repeat match goal with
               | |- context [Z.log2 ?x] =>
                   assert (Z.log2 x < 32) by (apply Z.log2_lt_pow2; lia);
                   generalize dependent (Z.log2 x); intros
               end; lia.
    + apply IHc.
Qed.

End Hashes.

(** ** CompareHashStruct on a well-formed record *)

Section Compare.

Context {V : Type} (Fprintf : V -> list Z).

Lemma index_map_name (fieldInfos : list (fieldInfo V)) (k : nat) :
  index (List.map name fieldInfos) k
  = (x <-! index fieldInfos k; Returns (name x)).
Proof.
  unfold index. change (List.map name fieldInfos) with (name <$> fieldInfos).
  rewrite list_lookup_fmap. now destruct (fieldInfos !! k).
Qed.

Lemma CompareHashStruct_compareHashes (obj : object V) fieldInfos h :
  getFieldInfos obj = Returns (Ret fieldInfos) ->
  CompareHashStruct Fprintf obj h
  = compareHashes (List.map name fieldInfos) (fullChecksum Fprintf fieldInfos)
      (List.map (checksum Fprintf) fieldInfos) h.
Proof.
  intros Hg. unfold CompareHashStruct, compareHashes.
  rewrite Hg. cbn [obind]. rewrite getHashes_spec.
  destruct (sliceTo h 8) as [head8 |]; [| reflexivity]. cbn [obind].
  destruct (uint64FromSlice (elems head8)) as [stored |]; [| reflexivity].
  cbn [obind]. destruct (stored =? _); [reflexivity |].
  destruct (sliceFrom h 8) as [tail |]; [| reflexivity]. cbn [obind].
  destruct (uint32SliceFromByteSlice (elems tail)) as [code |]; [| reflexivity].
  cbn [obind]. destruct (findErrorLocation _ code) as [[found loc] |]; [| reflexivity].
  cbn [obind]. destruct found; [| reflexivity]. cbn [negb].
  rewrite index_map_name. now destruct (index fieldInfos (Z.to_nat loc)).
Qed.

Lemma HashStruct_wellFormed (fields : list (structField V)) :
  wellFormed fields -> exportedFields fields ->
  HashStruct Fprintf (PointerToStruct fields)
  = Returns
      (Ret (Slice
              (uint64ToSlice (fullChecksum Fprintf (sortByName (List.map infoOf fields)))
               ++ uint32SliceToByteSlice
                    (calculateHammingCode
                       (List.map (checksum Fprintf)
                          (sortByName (List.map infoOf fields)))))
              [])).
Proof.
  intros Hwf Hex. unfold HashStruct, hashInfo.
  rewrite (getFieldInfos_wellFormed fields Hwf Hex). cbn [obind].
  now rewrite getHashes_spec.
Qed.

(** With an unexported field among distinct non-empty tags, the three
    exported functions panic in [getFieldInfos]. *)
Lemma HashStruct_unexported (fields : list (structField V)) :
  wellFormed fields -> ~ exportedFields fields ->
  HashStruct Fprintf (PointerToStruct fields) = Panics.
Proof.
  intros Hwf Hex. unfold HashStruct.
  now rewrite (getFieldInfos_unexported fields Hwf Hex).
Qed.

Lemma CompareHashStruct_unexported (fields : list (structField V)) h :
  wellFormed fields -> ~ exportedFields fields ->
  CompareHashStruct Fprintf (PointerToStruct fields) h = Panics.
Proof.
  intros Hwf Hex. unfold CompareHashStruct.
  now rewrite (getFieldInfos_unexported fields Hwf Hex).
Qed.

(** A comparison that gets past [getFieldInfos] ends in a panic, in [nil]
    or in a [FieldChangedError]. *)
Lemma compareHashes_cases names full fieldHashes h :
  compareHashes names full fieldHashes h = Panics
  \/ compareHashes names full fieldHashes h = Returns None
  \/ exists f, compareHashes names full fieldHashes h
               = Returns (Some (FieldChangedError f)).
Proof.
  unfold compareHashes.
  destruct (sliceTo h 8) as [head8 |]; [| now left]. cbn [obind].
  destruct (uint64FromSlice (elems head8)) as [stored |]; [| now left].
  cbn [obind]. destruct (stored =? _); [right; now left |].
  destruct (sliceFrom h 8) as [tail |]; [| now left]. cbn [obind].
  destruct (uint32SliceFromByteSlice (elems tail)) as [code |]; [| now left].
  cbn [obind]. destruct (findErrorLocation _ code) as [[found loc] |]; [| now left].
  cbn [obind]. destruct found; cbn [negb].
  - destruct (index names (Z.to_nat loc)) as [f |]; [| now left].
    right; right. now exists f.
  - right; right. now exists "".
Qed.

End Compare.

(** * The claims *)

(** ** Parity encoder *)

Lemma parityCount_least (n : nat) (q : Z) :
  0 <= q -> Z.of_nat n + 1 <= 2 ^ q -> parityCount n <= q.
Proof.
  intros Hq Hn. unfold parityCount.
  apply Z.le_trans with (Z.log2_up (2 ^ q)).
  - apply Z.log2_up_le_mono. lia.
  - rewrite Z.log2_up_pow2; lia.
Qed.

(** C5. For a vector of [n] field checksums [calculateHammingCode] returns
    [ceil(log2(n+1))] parity words, none when [n = 0], and parity word [k] is
    the XOR of every checksum whose 1-based position has bit [k] set.  [n] is
    taken below [2^32], the range of the conversion [uint32(len(fields))]. *)
Theorem calculateHammingCode_spec (fields : list Z) :
  Z.of_nat (length fields) < 2 ^ 32 ->
  Z.of_nat (length (calculateHammingCode fields)) = parityCount (length fields)
  /\ (length fields = 0%nat -> calculateHammingCode fields = [])
  /\ forall k : nat,
      Z.of_nat k < parityCount (length fields) ->
      calculateHammingCode fields !! k = Some (xorSelected (Z.of_nat k) 1 fields).
Proof.
  intros Hn.
  pose proof (hammingCode_length_parityCount fields Hn) as Hlen.
  pose proof (parityCount_range _ Hn) as Hp.
  split; [lia |]. split.
  - intros Hzero. rewrite Hzero in Hlen.
    now apply length_zero_iff_nil in Hlen.
  - intros k Hk. apply lookup_calculateHammingCode. lia.
Qed.

Lemma calculateHammingCode_spec_witness :
  Z.of_nat (length [5; 6; 7; 8; 9]) < 2 ^ 32
  /\ Z.of_nat (length (calculateHammingCode [5; 6; 7; 8; 9])) = 3
  /\ calculateHammingCode [5; 6; 7; 8; 9] !! 2%nat = Some (Z.lxor 8 9).
Proof.
  split; [reflexivity |].
  destruct (calculateHammingCode_spec [5; 6; 7; 8; 9]) as (Hlen & _ & Hk);
    [reflexivity |].
  split; [exact Hlen | exact (Hk 2%nat eq_refl)].
Defined.

(** ** Fingerprint length *)

(** C6, as the code has it.  The fingerprint of a well-formed record with
    [n] fields, all of them exported, has [8 + 4 * ceil(log2(n+1))] bytes,
    whatever the fields hold: 8 bytes for no field, 12 bytes for one.  [n] is
    taken below [2^32], the range of the conversion [uint32(len(fields))]. *)
Theorem HashStruct_length {V} (Fprintf : V -> list Z) (fields : list (structField V)) :
  wellFormed fields ->
  exportedFields fields ->
  Z.of_nat (length fields) < 2 ^ 32 ->
  exists h,
    HashStruct Fprintf (PointerToStruct fields) = Returns (Ret h)
    /\ Z.of_nat (len h) = 8 + 4 * parityCount (length fields)
    /\ (length fields = 0%nat -> len h = 8%nat)
    /\ (length fields = 1%nat -> len h = 12%nat).
Proof.
  intros Hwf Hex Hn. rewrite (HashStruct_wellFormed Fprintf fields Hwf Hex).
  eexists. split; [reflexivity |].
  assert (Z.of_nat (len (Slice
            (uint64ToSlice (fullChecksum Fprintf (sortByName (List.map infoOf fields)))
             ++ uint32SliceToByteSlice
                  (calculateHammingCode
                     (List.map (checksum Fprintf) (sortByName (List.map infoOf fields)))))
            [])) = 8 + 4 * parityCount (length fields)) as Hlen.
  { unfold len. cbn [elems].
    rewrite length_app, length_uint64ToSlice, length_uint32SliceToByteSlice.
    rewrite hammingCode_length_parityCount;
      rewrite length_map, length_sortByName, length_map; [| exact Hn].
    pose proof (parityCount_range _ Hn). lia. }
  split; [exact Hlen |]. split; intros Hcount; rewrite Hcount in Hlen.
  - change (parityCount 0) with 0 in Hlen. lia.
  - change (parityCount 1) with 1 in Hlen. lia.
Qed.

Lemma HashStruct_length_witness :
  wellFormed test1
  /\ exportedFields test1
  /\ Z.of_nat (length test1) < 2 ^ 32
  /\ exists h, HashStruct printed (PointerToStruct test1) = Returns (Ret h)
               /\ Z.of_nat (len h) = 20.
Proof.
  assert (wellFormed test1) as Hwf by (apply (bool_decide_unpack _); exact I).
  assert (exportedFields test1) as Hex by (apply (bool_decide_unpack _); exact I).
  split; [exact Hwf |]. split; [exact Hex |]. split; [reflexivity |].
  destruct (HashStruct_length printed test1 Hwf Hex eq_refl) as (h & Hh & Hlen & _).
  exists h. split; [exact Hh | exact Hlen].
Defined.

(** C6, as stated, fails: [withUnexported] has two fields with distinct
    non-empty tags, but the second is unexported and [HashStruct] panics in
    [getFieldInfos]; there is no fingerprint to measure. *)
Lemma HashStruct_no_fingerprint :
  wellFormed withUnexported
  /\ Z.of_nat (length withUnexported) < 2 ^ 32
  /\ HashStruct printed (PointerToStruct withUnexported) = Panics
  /\ ~ exists h, HashStruct printed (PointerToStruct withUnexported) = Returns (Ret h).
Proof.
  split; [apply (bool_decide_unpack _); exact I |].
  split; [reflexivity |]. split; [reflexivity |].
  intros [h Hh]. vm_compute in Hh. discriminate.
Qed.

(** ** No-change round trip *)

(** C3, as the code has it.  Comparing a well-formed record whose fields are
    all exported with the fingerprint [HashStruct] returned for it returns
    [nil]. *)
Theorem CompareHashStruct_HashStruct {V} (Fprintf : V -> list Z)
    (fields : list (structField V)) :
  wellFormed fields ->
  exportedFields fields ->
  exists h,
    HashStruct Fprintf (PointerToStruct fields) = Returns (Ret h)
    /\ CompareHashStruct Fprintf (PointerToStruct fields) h = Returns None.
Proof.
  intros Hwf Hex. rewrite (HashStruct_wellFormed Fprintf fields Hwf Hex).
  eexists. split; [reflexivity |].
  rewrite (CompareHashStruct_compareHashes Fprintf _ _ _
             (getFieldInfos_wellFormed fields Hwf Hex)).
  unfold compareHashes, sliceTo, cap. cbn [elems spare].
  rewrite length_app, length_uint64ToSlice. simpl Nat.leb.
  cbn [obind elems]. rewrite app_nil_r.
  rewrite take_app_length' by reflexivity.
  pose proof (uint64FromSlice_uint64ToSlice
                (fullChecksum Fprintf (sortByName (List.map infoOf fields))) []
                (fullChecksum_range Fprintf _)) as Hdec.
  rewrite app_nil_r in Hdec. rewrite Hdec. cbn [obind].
  now rewrite Z.eqb_refl.
Qed.

Lemma CompareHashStruct_HashStruct_witness :
  wellFormed test1
  /\ exportedFields test1
  /\ exists h, HashStruct printed (PointerToStruct test1) = Returns (Ret h)
               /\ CompareHashStruct printed (PointerToStruct test1) h = Returns None.
Proof.
  assert (wellFormed test1) as Hwf by (apply (bool_decide_unpack _); exact I).
  assert (exportedFields test1) as Hex by (apply (bool_decide_unpack _); exact I).
  split; [exact Hwf |]. split; [exact Hex |].
  exact (CompareHashStruct_HashStruct printed test1 Hwf Hex).
Defined.

(** C3, as stated, fails: [withUnexported] is a struct whose fields all carry
    distinct non-empty tags, but [reflect] refuses [Interface] on its
    unexported field: [HashStruct] panics, and so does [CompareHashStruct]
    whatever the stored hash. *)
Lemma round_trip_panics :
  wellFormed withUnexported
  /\ HashStruct printed (PointerToStruct withUnexported) = Panics
  /\ forall h, CompareHashStruct printed (PointerToStruct withUnexported) h = Panics.
Proof.
  split; [apply (bool_decide_unpack _); exact I |].
  split; [reflexivity |]. intros h. reflexivity.
Qed.

(** ** Structural validity *)

Section Validity.

Context {V : Type} (Fprintf : V -> list Z).






End Validity.




(** ** Canonical order *)

Section Canonical.

Context {V : Type} (Fprintf : V -> list Z).

Lemma stream_printedInfo (info : fieldInfo V) :
  stream id (printedInfo Fprintf info) = stream Fprintf info.
Proof. reflexivity. Qed.

Lemma checksum_printedInfo (l : list (fieldInfo V)) :
  List.map (checksum id) (List.map (printedInfo Fprintf) l)
  = List.map (checksum Fprintf) l.
Proof. rewrite List.map_map. reflexivity. Qed.

Lemma fullChecksum_printedInfo (l : list (fieldInfo V)) :
  fullChecksum id (List.map (printedInfo Fprintf) l) = fullChecksum Fprintf l.
Proof. unfold fullChecksum. rewrite List.map_map. reflexivity. Qed.

Lemma name_printedInfo (l : list (fieldInfo V)) :
  List.map name (List.map (printedInfo Fprintf) l) = List.map name l.
Proof. rewrite List.map_map. reflexivity. Qed.

Lemma printedInfo_infoOf (fields : list (structField V)) :
  List.map (printedInfo Fprintf) (List.map infoOf fields)
  = List.map (fun p : string * list Z => FieldInfo (fst p) (snd p))
      (List.map (serialized Fprintf) fields).
Proof. rewrite !List.map_map. reflexivity. Qed.

Lemma tagOf_serialized (fields : list (structField V)) :
  List.map tagOf fields = List.map fst (List.map (serialized Fprintf) fields).
Proof. rewrite List.map_map. reflexivity. Qed.

End Canonical.

Lemma wellFormed_permuted {V W} (Fv : V -> list Z) (Fw : W -> list Z)
    (fields1 : list (structField V)) (fields2 : list (structField W)) :
  List.map (serialized Fv) fields1 ≡ₚ List.map (serialized Fw) fields2 ->
  wellFormed fields1 -> wellFormed fields2.
Proof.
  intros Hperm [Hne Hnd].
  assert (List.map tagOf fields1 ≡ₚ List.map tagOf fields2) as Htags.
  { rewrite (tagOf_serialized Fv), (tagOf_serialized Fw).
    now apply Permutation_map. }
  split.
  - apply Forall_forall. intros f Hin Hempty.
    assert (tagOf f ∈ List.map tagOf fields1) as Hin1.
    { rewrite Htags. apply list_elem_of_In, in_map, list_elem_of_In, Hin. }
    apply list_elem_of_In, in_map_iff in Hin1 as (g & Hg & Hing).
    rewrite Forall_forall in Hne. apply (Hne g).
    + now apply list_elem_of_In.
    + congruence.
  - now rewrite <- Htags.
Qed.

(** The sorted fields of two records with the same identifiers and printed
    values are the same once printed, in whatever order each record declares
    them. *)
Lemma sorted_permuted {V W} (Fv : V -> list Z) (Fw : W -> list Z)
    (fields1 : list (structField V)) (fields2 : list (structField W)) :
  wellFormed fields1 ->
  List.map (serialized Fv) fields1 ≡ₚ List.map (serialized Fw) fields2 ->
  List.map (printedInfo Fv) (sortByName (List.map infoOf fields1))
  = List.map (printedInfo Fw) (sortByName (List.map infoOf fields2)).
Proof.
  intros Hwf Hperm.
  rewrite <- !sortByName_map by reflexivity.
  rewrite !printedInfo_infoOf. symmetry. apply sortByName_permuted.
  - rewrite <- printedInfo_infoOf, name_printedInfo.
    now apply getFieldInfos_NoDup.
  - now apply Permutation_map.
Qed.

(** C8, as the code has it.  On records whose fields are all exported,
    [HashStruct] and [CompareHashStruct] both work on the fields sorted by
    identifier, the order [getFieldInfos] leaves them in.  Hence two such
    records whose fields give the same identifiers with the same printed
    values, declared in different orders, have the same fingerprint and
    compare alike with every stored hash. *)
Theorem canonical_order {V W} (Fv : V -> list Z) (Fw : W -> list Z)
    (fields1 : list (structField V)) (fields2 : list (structField W)) :
  wellFormed fields1 ->
  exportedFields fields1 -> exportedFields fields2 ->
  List.map (serialized Fv) fields1 ≡ₚ List.map (serialized Fw) fields2 ->
  (exists sorted,
     getFieldInfos (PointerToStruct fields1) = Returns (Ret sorted)
     /\ StronglySorted nameLt sorted
     /\ sorted ≡ₚ List.map infoOf fields1
     /\ HashStruct Fv (PointerToStruct fields1) = Returns (hashInfo Fv sorted)
     /\ forall h,
         CompareHashStruct Fv (PointerToStruct fields1) h
         = compareHashes (List.map name sorted) (fullChecksum Fv sorted)
             (List.map (checksum Fv) sorted) h)
  /\ HashStruct Fv (PointerToStruct fields1) = HashStruct Fw (PointerToStruct fields2)
  /\ forall h,
      CompareHashStruct Fv (PointerToStruct fields1) h
      = CompareHashStruct Fw (PointerToStruct fields2) h.
Proof.
  intros Hwf1 Hex1 Hex2 Hperm.
  pose proof (wellFormed_permuted Fv Fw fields1 fields2 Hperm Hwf1) as Hwf2.
  pose proof (getFieldInfos_wellFormed fields1 Hwf1 Hex1) as Hg1.
  pose proof (getFieldInfos_wellFormed fields2 Hwf2 Hex2) as Hg2.
  pose proof (sorted_permuted Fv Fw fields1 fields2 Hwf1 Hperm) as Hsame.
  assert (fullChecksum Fv (sortByName (List.map infoOf fields1))
          = fullChecksum Fw (sortByName (List.map infoOf fields2))) as Hfull
      by (rewrite <- (fullChecksum_printedInfo Fv), Hsame;
          apply fullChecksum_printedInfo).
  assert (List.map (checksum Fv) (sortByName (List.map infoOf fields1))
          = List.map (checksum Fw) (sortByName (List.map infoOf fields2))) as Hsums
      by (rewrite <- (checksum_printedInfo Fv), Hsame; apply checksum_printedInfo).
  assert (List.map name (sortByName (List.map infoOf fields1))
          = List.map name (sortByName (List.map infoOf fields2))) as Hnames
      by (rewrite <- (name_printedInfo Fv), Hsame; apply name_printedInfo).
  split; [| split].
  - exists (sortByName (List.map infoOf fields1)). split; [exact Hg1 |].
    split; [apply sortByName_sorted, getFieldInfos_NoDup, Hwf1 |].
    split; [apply sortByName_Permutation |]. split.
    + unfold HashStruct. now rewrite Hg1.
    + intros h. now apply CompareHashStruct_compareHashes.
  - rewrite !HashStruct_wellFormed by assumption. now rewrite Hfull, Hsums.
  - intros h.
    rewrite (CompareHashStruct_compareHashes Fv _ _ h Hg1).
    rewrite (CompareHashStruct_compareHashes Fw _ _ h Hg2).
    now rewrite Hfull, Hsums, Hnames.
Qed.

Lemma canonical_order_witness :
  wellFormed test1
  /\ exportedFields test1 /\ exportedFields test1Shuffled
  /\ List.map (serialized printed) test1 ≡ₚ List.map (serialized printed) test1Shuffled
  /\ HashStruct printed (PointerToStruct test1)
     = HashStruct printed (PointerToStruct test1Shuffled).
Proof.
  assert (wellFormed test1) as Hwf by (apply (bool_decide_unpack _); exact I).
  assert (List.map (serialized printed) test1
          ≡ₚ List.map (serialized printed) test1Shuffled) as Hperm.
  { unfold test1, testStruct, test1Shuffled. cbn [List.map].
    set (a := serialized printed (tagged "Field1" _)).
    set (b := serialized printed (tagged "Field2" _)).
    set (c := serialized printed (tagged "Field3" _)).
    set (d := serialized printed (tagged "Field4" _)).
    set (e := serialized printed (tagged "Field5" _)).
    change (serialized printed (tagged "Field4" "(*string)test4")) with d.
    change (serialized printed (tagged "Field1" "(*string)test1")) with a.
    change (serialized printed (tagged "Field5" "(*string)test5")) with e.
    change (serialized printed (tagged "Field3" "(*string)test3")) with c.
    change (serialized printed (tagged "Field2" "(*string)test2")) with b.
    apply (Permutation_trans (l' := [d; a; b; c; e])).
    - change ([a; b; c; d; e]) with ([a; b; c] ++ d :: [e]).
      symmetry. apply (Permutation_middle [a; b; c] [e] d).
    - apply perm_skip, perm_skip.
      change ([b; c; e]) with ([b; c] ++ [e]).
      change ([e; c; b]) with ([e] ++ [c; b]).
      rewrite (Permutation_app_comm [b; c] [e]).
      apply Permutation_app_head, perm_swap. }
  assert (exportedFields test1) as Hex1 by (apply (bool_decide_unpack _); exact I).
  assert (exportedFields test1Shuffled) as Hex2
      by (apply (bool_decide_unpack _); exact I).
  split; [exact Hwf |]. split; [exact Hex1 |]. split; [exact Hex2 |].
  split; [exact Hperm |].
  exact (proj1 (proj2 (canonical_order printed printed test1 test1Shuffled
                         Hwf Hex1 Hex2 Hperm))).
Defined.

(** C8, as stated, fails: [allExported] and [withUnexported] give the same
    identifiers with the same printed values in different declaration
    orders, and both are well formed, yet [HashStruct] returns a fingerprint
    for the first and panics on the second, whose field [field2] is
    unexported; [CompareHashStruct] differs in the same way. *)
Lemma order_and_export :
  wellFormed allExported /\ wellFormed withUnexported
  /\ List.map (serialized printed) allExported
     ≡ₚ List.map (serialized printed) withUnexported
  /\ (exists h, HashStruct printed (PointerToStruct allExported) = Returns (Ret h)
                /\ CompareHashStruct printed (PointerToStruct allExported) h
                   = Returns None
                /\ CompareHashStruct printed (PointerToStruct withUnexported) h
                   = Panics)
  /\ HashStruct printed (PointerToStruct withUnexported) = Panics.
Proof.
  split; [apply (bool_decide_unpack _); exact I |].
  split; [apply (bool_decide_unpack _); exact I |].
  split; [apply perm_swap |]. split; [| reflexivity].
  eexists. split; [vm_compute; reflexivity |].
  split; vm_compute; reflexivity.
Qed.

(** ** Field hasher *)

(** C4, as the code has it.  [getHashes] writes the identifier bytes and
    then the value bytes with nothing between them: the checksum it returns
    for a field is the FNV-1a 32 hash of the plain concatenation, started
    afresh for each field, and the full checksum is the FNV-1a 64 hash of
    the concatenations of all fields in a row.  Two fields whose
    concatenations coincide, however they split into identifier and value,
    are therefore hashed alike in any record. *)
Theorem getHashes_concatenation {V} (Fprintf : V -> list Z)
    (before after : list (fieldInfo V)) (a b : fieldInfo V) :
  bytesOf (name a) ++ Fprintf (fieldValue a)
  = bytesOf (name b) ++ Fprintf (fieldValue b) ->
  (forall fieldInfos : list (fieldInfo V),
      getHashes Fprintf fieldInfos
      = (write64 offset64
           (concat (List.map
                      (fun info => bytesOf (name info) ++ Fprintf (fieldValue info))
                      fieldInfos)),
         List.map
           (fun info => write32 offset32 (bytesOf (name info) ++ Fprintf (fieldValue info)))
           fieldInfos))
  /\ snd (getHashes Fprintf (before ++ a :: after)) !! length before
     = Some (write32 offset32 (bytesOf (name a) ++ Fprintf (fieldValue a)))
  /\ snd (getHashes Fprintf (before ++ b :: after)) !! length before
     = Some (write32 offset32 (bytesOf (name a) ++ Fprintf (fieldValue a)))
  /\ getHashes Fprintf (before ++ a :: after) = getHashes Fprintf (before ++ b :: after).
Proof.
  intros Hsame.
  assert (stream Fprintf a = stream Fprintf b) as Hstream by exact Hsame.
  split; [intros fieldInfos; apply getHashes_spec |].
  rewrite !getHashes_spec. cbn [snd]. unfold fullChecksum.
  rewrite !List.map_app. cbn [List.map].
  assert (length before = length (List.map (checksum Fprintf) before)) as Hlen
      by now rewrite length_map.
  split; [rewrite Hlen; apply list_lookup_middle; reflexivity |].
  split.
  - rewrite Hlen, list_lookup_middle by reflexivity.
    unfold checksum. now rewrite <- Hstream.
  - unfold checksum. now rewrite Hstream.
Qed.

Lemma getHashes_concatenation_witness :
  bytesOf "AB" ++ printed "C" = bytesOf "A" ++ printed "BC"
  /\ getHashes printed [FieldInfo "AB" "C"] = getHashes printed [FieldInfo "A" "BC"].
Proof.
  split; [reflexivity |].
  exact (proj2 (proj2 (proj2 (getHashes_concatenation printed [] []
                                (FieldInfo "AB" "C") (FieldInfo "A" "BC") eq_refl)))).
Defined.

(** C4, as stated, fails: identifier "AB" with value "C" and identifier "A"
    with value "BC" are different fields with the same hash input, and so
    are, with values as go-spew prints them, identifier "A(*string)" with
    the string "x" and identifier "A" with the string "(*string)x". *)
Lemma identifier_not_delimited :
  "AB" <> "A"
  /\ stream printed (FieldInfo "AB" "C") = stream printed (FieldInfo "A" "BC")
  /\ getHashes printed [FieldInfo "AB" "C"] = getHashes printed [FieldInfo "A" "BC"]
  /\ getHashes printed [FieldInfo "A(*string)" "(*string)x"]
     = getHashes printed [FieldInfo "A" "(*string)(*string)x"].
Proof. repeat split; [discriminate | vm_compute; reflexivity..]. Qed.

(** ** The comparator *)

Lemma uint64FromSlice_returns (s : list Z) :
  (8 <= length s)%nat -> exists stored, uint64FromSlice s = Returns stored.
Proof.
  intros Hlen. unfold uint64FromSlice, index.
  destruct s as [| b0 [| b1 [| b2 [| b3 [| b4 [| b5 [| b6 [| b7 s]]]]]]]];
    simpl in Hlen; try lia.
  simpl. eauto.
Qed.

Lemma uint64FromSlice_panics (s : list Z) :
  (length s < 8)%nat -> uint64FromSlice s = Panics.
Proof.
  intros Hlen. unfold uint64FromSlice, index.
  destruct s as [| b0 [| b1 [| b2 [| b3 [| b4 [| b5 [| b6 [| b7 s]]]]]]]];
    simpl in Hlen; try lia; reflexivity.
Qed.

(** The stored full checksum as [CompareHashStruct] reads it: the first
    eight bytes of the array under [existingHash]. *)
Lemma compareHashes_head names full fieldHashes h :
  (8 <= cap h)%nat ->
  exists stored,
    uint64FromSlice (take 8 (elems h ++ spare h)) = Returns stored
    /\ compareHashes names full fieldHashes h
       = if stored =? full then Returns None
         else
           tail <-! sliceFrom h 8;
           existingHammingCode <-! uint32SliceFromByteSlice (elems tail);
           r <-! findErrorLocation fieldHashes existingHammingCode;
           let '(foundLocation, location) := r in
           if negb foundLocation then Returns (Some (FieldChangedError ""))
           else
             mismatchingField <-! index names (Z.to_nat location);
             Returns (Some (FieldChangedError mismatchingField)).
Proof.
  intros Hcap. unfold compareHashes, sliceTo.
  rewrite (proj2 (Nat.leb_le 8 (cap h))) by exact Hcap. cbn [obind elems].
  destruct (uint64FromSlice_returns (take 8 (elems h ++ spare h))) as [stored Hs].
  { rewrite length_take, length_app. unfold cap in Hcap. lia. }
  exists stored. split; [exact Hs |]. rewrite Hs. reflexivity.
Qed.

Lemma take_elems (h : byteSlice) :
  (8 <= len h)%nat -> take 8 (elems h ++ spare h) = take 8 (elems h).
Proof. intros Hlen. apply take_app_le. exact Hlen. Qed.

(** With no more stored parity words than recomputed ones the comparison
    stays in bounds, and reports a change when the full checksums differ. *)
Lemma compareHashes_in_bounds names full fieldHashes h stored :
  (8 <= len h)%nat ->
  length names = length fieldHashes ->
  ((len h - 8) / 4 <= length (calculateHammingCode fieldHashes))%nat ->
  uint64FromSlice (take 8 (elems h)) = Returns stored ->
  stored <> full ->
  exists f,
    compareHashes names full fieldHashes h = Returns (Some (FieldChangedError f))
    /\ (f = "" \/ f ∈ names).
Proof.
  intros Hlen Hnames Hcount Hstored Hne.
  destruct (compareHashes_head names full fieldHashes h) as (stored' & Hs & ->).
  { unfold cap. unfold len in Hlen. lia. }
  rewrite take_elems, Hstored in Hs by exact Hlen. injection Hs as <-.
  rewrite (proj2 (Z.eqb_neq stored full)) by exact Hne.
  unfold sliceFrom. rewrite (proj2 (Nat.leb_le 8 (len h))) by exact Hlen.
  cbn [obind elems].
  destruct (uint32SliceFromByteSlice_returns (drop 8 (elems h)))
    as (code & -> & Hcode).
  cbn [obind]. rewrite length_drop in Hcode. fold (len h) in Hcode.
  destruct (findErrorLocation_returns fieldHashes code) as (found & loc & -> & Hloc);
    [lia |].
  cbn [obind]. destruct found; cbn [negb].
  - specialize (Hloc eq_refl). unfold index.
    destruct (lookup_lt_is_Some_2 names (Z.to_nat loc)) as [f Hf]; [lia |].
    rewrite Hf. cbn [obind]. exists f. split; [reflexivity |].
    right. eapply list_elem_of_lookup_2; eauto.
  - exists "". split; [reflexivity | now left].
Qed.

(** When the full checksums differ, a stored hash shorter than eight bytes
    or with more parity words than are recomputed ends in a panic. *)
Lemma compareHashes_panics names full fieldHashes h stored :
  (8 <= cap h)%nat ->
  uint64FromSlice (take 8 (elems h ++ spare h)) = Returns stored ->
  stored <> full ->
  (len h < 8)%nat
  \/ (length (calculateHammingCode fieldHashes) < (len h - 8) / 4)%nat ->
  compareHashes names full fieldHashes h = Panics.
Proof.
  intros Hcap Hstored Hne Hbad.
  destruct (compareHashes_head names full fieldHashes h Hcap) as (stored' & Hs & ->).
  rewrite Hstored in Hs. injection Hs as <-.
  rewrite (proj2 (Z.eqb_neq stored full)) by exact Hne.
  unfold sliceFrom. destruct (Nat.leb_spec 8 (len h)) as [Hlen | Hshort].
  - destruct Hbad as [Hshort | Hmany]; [lia |]. cbn [obind elems].
    destruct (uint32SliceFromByteSlice_returns (drop 8 (elems h)))
      as (code & -> & Hcode).
    cbn [obind]. rewrite length_drop in Hcode. fold (len h) in Hcode.
    unfold findErrorLocation. rewrite locateLoop_panics; [reflexivity |]. lia.
  - reflexivity.
Qed.

Lemma compareHashes_short names full fieldHashes h :
  (cap h < 8)%nat -> compareHashes names full fieldHashes h = Panics.
Proof.
  intros Hcap. unfold compareHashes, sliceTo.
  now rewrite (proj2 (Nat.leb_gt 8 (cap h))) by exact Hcap.
Qed.

(** The comparison on a fingerprint as [hashInfo] lays it out. *)
Lemma compareHashes_encoded names full fieldHashes stored code :
  isUint64 stored -> Forall isUint32 code ->
  compareHashes names full fieldHashes
    (Slice (uint64ToSlice stored ++ uint32SliceToByteSlice code) [])
  = if stored =? full then Returns None
    else
      r <-! findErrorLocation fieldHashes code;
      let '(foundLocation, location) := r in
      if negb foundLocation then Returns (Some (FieldChangedError ""))
      else
        mismatchingField <-! index names (Z.to_nat location);
        Returns (Some (FieldChangedError mismatchingField)).
Proof.
  intros Hstored Hcode.
  destruct (compareHashes_head names full fieldHashes
              (Slice (uint64ToSlice stored ++ uint32SliceToByteSlice code) []))
    as (stored' & Hs & ->).
  { unfold cap. cbn [elems spare]. rewrite length_app, length_uint64ToSlice. lia. }
  cbn [elems spare] in Hs. rewrite app_nil_r in Hs.
  rewrite take_app_length' in Hs by reflexivity.
  pose proof (uint64FromSlice_uint64ToSlice stored [] Hstored) as Hdec.
  rewrite app_nil_r in Hdec. rewrite Hdec in Hs. injection Hs as <-.
  destruct (stored =? full); [reflexivity |].
  unfold sliceFrom, len. cbn [elems spare].
  rewrite length_app, length_uint64ToSlice.
  rewrite (proj2 (Nat.leb_le 8 _)) by lia. cbn [obind elems].
  rewrite drop_app_length' by reflexivity.
  rewrite uint32SliceFromByteSlice_toBytes by exact Hcode. reflexivity.
Qed.

(** ** Unchanged or changed *)

(** C7, as the code has it.  For a well-formed record whose fields are all
    exported and a stored hash of
    at least eight bytes, [CompareHashStruct] returns [nil] exactly when the
    recomputed full checksum is the little-endian value of the first eight
    bytes.  When the two differ and the stored hash has no more parity words
    than are recomputed for the record, the result is a [FieldChangedError],
    with the tag of a field of the record or with an empty [Field]. *)
Theorem CompareHashStruct_nil_iff {V} (Fprintf : V -> list Z)
    (fields : list (structField V)) (h : byteSlice) :
  wellFormed fields ->
  exportedFields fields ->
  (8 <= len h)%nat ->
  exists stored,
    uint64FromSlice (take 8 (elems h)) = Returns stored
    /\ (CompareHashStruct Fprintf (PointerToStruct fields) h = Returns None
        <-> stored = fullChecksum Fprintf (sortByName (List.map infoOf fields)))
    /\ (stored <> fullChecksum Fprintf (sortByName (List.map infoOf fields)) ->
        ((len h - 8) / 4
         <= length (calculateHammingCode
                      (List.map (checksum Fprintf)
                         (sortByName (List.map infoOf fields)))))%nat ->
        exists f,
          CompareHashStruct Fprintf (PointerToStruct fields) h
          = Returns (Some (FieldChangedError f))
          /\ (f = "" \/ f ∈ List.map tagOf fields)).
Proof.
  intros Hwf Hex Hlen.
  set (sorted := sortByName (List.map infoOf fields)).
  rewrite (CompareHashStruct_compareHashes Fprintf _ _ h
             (getFieldInfos_wellFormed fields Hwf Hex)).
  fold sorted.
  destruct (compareHashes_head (List.map name sorted) (fullChecksum Fprintf sorted)
              (List.map (checksum Fprintf) sorted) h) as (stored & Hs & Hcmp).
  { unfold cap. unfold len in Hlen. lia. }
  rewrite take_elems in Hs by exact Hlen.
  exists stored. split; [exact Hs |]. split.
  - split.
    + intros Hnil. destruct (Z.eqb_spec stored (fullChecksum Fprintf sorted))
        as [Heq | Hne]; [exact Heq |].
      destruct (compareHashes_cases (List.map name sorted)
                  (fullChecksum Fprintf sorted)
                  (List.map (checksum Fprintf) sorted) h) as [Hp | [Hn | [f Hf]]].
      * rewrite Hp in Hnil. discriminate.
      * exfalso. rewrite Hcmp in Hn. clear Hcmp Hnil.
        destruct (sliceFrom h 8) as [tail |]; [| discriminate]. cbn [obind] in Hn.
        destruct (uint32SliceFromByteSlice (elems tail)) as [code |];
          [| discriminate].
        cbn [obind] in Hn.
        destruct (findErrorLocation _ code) as [[found loc] |]; [| discriminate].
        cbn [obind] in Hn. destruct found; cbn [negb] in Hn; [| discriminate].
        destruct (index _ (Z.to_nat loc)); discriminate.
      * rewrite Hf in Hnil. discriminate.
    + intros ->. rewrite Hcmp, Z.eqb_refl. reflexivity.
  - intros Hne Hcount.
    destruct (compareHashes_in_bounds (List.map name sorted)
                (fullChecksum Fprintf sorted) (List.map (checksum Fprintf) sorted)
                h stored Hlen) as (f & Hf & Hin); auto.
    { now rewrite !length_map. }
    exists f. split; [exact Hf |]. destruct Hin as [-> | Hin]; [now left |].
    right. unfold sorted in Hin.
    rewrite sortByName_Permutation, map_name_infoOf in Hin. exact Hin.
Qed.

Lemma CompareHashStruct_nil_iff_witness :
  wellFormed test1
  /\ exportedFields test1
  /\ (8 <= len twelveZeros)%nat
  /\ exists f, CompareHashStruct printed (PointerToStruct test1) twelveZeros
               = Returns (Some (FieldChangedError f))
               /\ (f = "" \/ f ∈ List.map tagOf test1).
Proof.
  assert (wellFormed test1) as Hwf by (apply (bool_decide_unpack _); exact I).
  assert (exportedFields test1) as Hex by (apply (bool_decide_unpack _); exact I).
  assert (8 <= len twelveZeros)%nat as Hlen by (apply (bool_decide_unpack _); exact I).
  split; [exact Hwf |]. split; [exact Hex |]. split; [exact Hlen |].
  destruct (CompareHashStruct_nil_iff printed test1 twelveZeros Hwf Hex Hlen)
    as (stored & Hs & _ & Hchanged).
  injection Hs as <-. apply Hchanged.
  - vm_compute. discriminate.
  - apply (bool_decide_unpack _). exact I.
Defined.

(** C7, as stated, fails: the record without fields is well formed and
    [twelveZeros] has more than eight bytes and another full checksum, but the
    comparison ends in the panic of [expectedCode[0]], not in an error.  And
    on the well-formed record [withUnexported] the comparison panics in
    [getFieldInfos] for every stored hash, so that no stored full checksum
    makes it return [nil]. *)
Lemma CompareHashStruct_changed_panics :
  wellFormed noFields
  /\ (8 <= len twelveZeros)%nat
  /\ uint64FromSlice (take 8 (elems twelveZeros)) = Returns 0
  /\ fullChecksum printed (sortByName (List.map infoOf noFields)) <> 0
  /\ CompareHashStruct printed (PointerToStruct noFields) twelveZeros = Panics
  /\ (~ exists f, CompareHashStruct printed (PointerToStruct noFields) twelveZeros
                  = Returns (Some (FieldChangedError f)))
  /\ wellFormed withUnexported
  /\ forall h, CompareHashStruct printed (PointerToStruct withUnexported) h = Panics.
Proof.
  split; [apply (bool_decide_unpack _); exact I |].
  split; [apply (bool_decide_unpack _); exact I |].
  split; [reflexivity |]. split; [vm_compute; discriminate |].
  split; [reflexivity |].
  split; [intros [f Hf]; vm_compute in Hf; discriminate |].
  split; [apply (bool_decide_unpack _); exact I |].
  intros h. reflexivity.
Qed.

(** ** Bounds of the slice accesses *)

Lemma fromByteLoop_app (s extra : list Z) (n i : nat) :
  (4 * (i + n) <= length s)%nat ->
  fromByteLoop (s ++ extra) i n = fromByteLoop s i n.
Proof.
  revert i. induction n as [| n IH]; intros i Hlen; [reflexivity |].
  cbn [fromByteLoop]. unfold index.
  rewrite !lookup_app_l by lia. now rewrite IH by lia.
Qed.

(** Bytes after the last complete parity word are not read. *)
Lemma uint32SliceFromByteSlice_trailing (s extra : list Z) :
  (length s mod 4 = 0)%nat -> (length extra < 4)%nat ->
  uint32SliceFromByteSlice (s ++ extra) = uint32SliceFromByteSlice s.
Proof.
  intros Hmod Hextra. unfold uint32SliceFromByteSlice.
  pose proof (Nat.div_mod_eq (length s) 4) as Hs.
  assert ((length (s ++ extra) / 4 = length s / 4)%nat) as ->.
  { rewrite length_app.
    replace (length s + length extra)%nat
      with (length extra + (length s / 4) * 4)%nat by lia.
    rewrite Nat.div_add by lia. rewrite Nat.div_small by lia. lia. }
  apply fromByteLoop_app. lia.
Qed.

Lemma compareHashes_trailing names full fieldHashes (base extra sp1 sp2 : list Z) :
  (8 <= length base)%nat -> ((length base - 8) mod 4 = 0)%nat ->
  (length extra < 4)%nat ->
  compareHashes names full fieldHashes (Slice (base ++ extra) sp1)
  = compareHashes names full fieldHashes (Slice base sp2).
Proof.
  intros Hlen Hmod Hextra.
  destruct (compareHashes_head names full fieldHashes (Slice (base ++ extra) sp1))
    as (s1 & Hs1 & ->).
  { unfold cap. cbn [elems spare]. rewrite length_app. lia. }
  destruct (compareHashes_head names full fieldHashes (Slice base sp2))
    as (s2 & Hs2 & ->).
  { unfold cap. cbn [elems spare]. lia. }
  cbn [elems spare] in Hs1, Hs2.
  rewrite <- app_assoc, take_app_le in Hs1 by exact Hlen.
  rewrite take_app_le in Hs2 by exact Hlen.
  rewrite Hs1 in Hs2. injection Hs2 as <-.
  destruct (s1 =? full); [reflexivity |].
  unfold sliceFrom, len. cbn [elems spare]. rewrite length_app.
  rewrite (proj2 (Nat.leb_le 8 (length base + length extra))) by lia.
  rewrite (proj2 (Nat.leb_le 8 (length base))) by lia.
  cbn [obind elems]. rewrite drop_app_le by exact Hlen.
  rewrite uint32SliceFromByteSlice_trailing; [reflexivity | | exact Hextra].
  now rewrite length_drop.
Qed.

(** C10, as the code has it.  [CompareHashStruct] does not check the length
    of the stored hash.  For a well-formed record with [n] fields, all of
    them exported, every
    slice access is in bounds when the stored hash has at least eight bytes
    and no more than [ceil(log2(n+1))] complete parity words: decoding reads
    complete words only, bytes after the last complete word are ignored, and
    a location that is found is the index of a field.  The comparison panics
    when the array under the stored hash has fewer than eight bytes, and,
    the full checksums being different, when the stored hash has fewer than
    eight bytes or more parity words than are recomputed; when the full
    checksums are equal it returns [nil] before any parity word is read. *)
Theorem CompareHashStruct_bounds {V} (Fprintf : V -> list Z)
    (fields : list (structField V)) (h : byteSlice) :
  wellFormed fields ->
  exportedFields fields ->
  Z.of_nat (length fields) < 2 ^ 32 ->
  ((8 <= len h)%nat ->
   Z.of_nat ((len h - 8) / 4) <= parityCount (length fields) ->
   exists r, CompareHashStruct Fprintf (PointerToStruct fields) h = Returns r)
  /\ (forall s, exists out,
        uint32SliceFromByteSlice s = Returns out
        /\ length out = (length s / 4)%nat)
  /\ (forall code,
        Z.of_nat (length code) <= parityCount (length fields) ->
        exists found location,
          findErrorLocation
            (List.map (checksum Fprintf) (sortByName (List.map infoOf fields))) code
          = Returns (found, location)
          /\ (found = true -> 0 <= location < Z.of_nat (length fields)))
  /\ (forall extra sp,
        (8 <= len h)%nat -> ((len h - 8) mod 4 = 0)%nat -> (length extra < 4)%nat ->
        CompareHashStruct Fprintf (PointerToStruct fields) (Slice (elems h ++ extra) sp)
        = CompareHashStruct Fprintf (PointerToStruct fields) h)
  /\ ((cap h < 8)%nat ->
      CompareHashStruct Fprintf (PointerToStruct fields) h = Panics)
  /\ (forall stored,
        uint64FromSlice (take 8 (elems h ++ spare h)) = Returns stored ->
        (stored = fullChecksum Fprintf (sortByName (List.map infoOf fields)) ->
         CompareHashStruct Fprintf (PointerToStruct fields) h = Returns None)
        /\ (stored <> fullChecksum Fprintf (sortByName (List.map infoOf fields)) ->
            (len h < 8)%nat \/ parityCount (length fields) < Z.of_nat ((len h - 8) / 4) ->
            CompareHashStruct Fprintf (PointerToStruct fields) h = Panics)).
Proof.
  intros Hwf Hex Hn.
  set (sorted := sortByName (List.map infoOf fields)).
  pose proof (getFieldInfos_wellFormed fields Hwf Hex) as Hg. fold sorted in Hg.
  assert (length sorted = length fields) as Hsorted
      by (unfold sorted; now rewrite length_sortByName, length_map).
  assert (length (calculateHammingCode (List.map (checksum Fprintf) sorted))
          = Z.to_nat (parityCount (length fields))) as Hcode.
  { rewrite hammingCode_length_parityCount; rewrite length_map, Hsorted; auto. }
  pose proof (parityCount_range _ Hn) as Hp.
  assert (forall h', CompareHashStruct Fprintf (PointerToStruct fields) h'
                     = compareHashes (List.map name sorted)
                         (fullChecksum Fprintf sorted)
                         (List.map (checksum Fprintf) sorted) h') as Hcmp
      by (intros h'; now apply CompareHashStruct_compareHashes).
  repeat split.
  - intros Hlen Hcount. rewrite Hcmp.
    destruct (uint64FromSlice_returns (take 8 (elems h))) as [stored Hs].
    { rewrite length_take. unfold len in Hlen. lia. }
    destruct (Z.eq_dec stored (fullChecksum Fprintf sorted)) as [Heq | Hne].
    + destruct (compareHashes_head (List.map name sorted)
                  (fullChecksum Fprintf sorted)
                  (List.map (checksum Fprintf) sorted) h) as (stored' & Hs' & ->).
      { unfold cap. unfold len in Hlen. lia. }
      rewrite take_elems, Hs in Hs' by exact Hlen. injection Hs' as <-.
      rewrite (proj2 (Z.eqb_eq _ _) Heq). eauto.
    + destruct (compareHashes_in_bounds (List.map name sorted)
                  (fullChecksum Fprintf sorted) (List.map (checksum Fprintf) sorted)
                  h stored Hlen) as (f & -> & _); eauto.
      * now rewrite !length_map.
      * rewrite Hcode. lia.
  - apply uint32SliceFromByteSlice_returns.
  - intros code Hlen.
    destruct (findErrorLocation_returns (List.map (checksum Fprintf) sorted) code)
      as (found & loc & Hfind & Hloc).
    { rewrite Hcode. lia. }
    exists found, loc. split; [exact Hfind |].
    intros Hfound. specialize (Hloc Hfound).
    rewrite length_map, Hsorted in Hloc. exact Hloc.
  - intros extra sp Hlen Hmod Hextra. rewrite !Hcmp.
    destruct h as [base sp2]. now apply compareHashes_trailing.
  - intros Hcap. rewrite Hcmp. now apply compareHashes_short.
  - rename select (uint64FromSlice _ = _) into Hstored.
    intros ->. rewrite Hcmp.
    destruct (Nat.le_gt_cases 8 (cap h)) as [Hcap | Hcap].
    + destruct (compareHashes_head (List.map name sorted)
                  (fullChecksum Fprintf sorted)
                  (List.map (checksum Fprintf) sorted) h Hcap) as (stored' & Hs' & ->).
      rewrite Hstored in Hs'. injection Hs' as <-. now rewrite Z.eqb_refl.
    + rewrite uint64FromSlice_panics in Hstored; [discriminate |].
      rewrite length_take, length_app. unfold cap in Hcap. lia.
  - intros Hne Hbad. rewrite Hcmp.
    destruct (Nat.le_gt_cases 8 (cap h)) as [Hcap | Hcap].
    + eapply compareHashes_panics; eauto.
      destruct Hbad as [Hshort | Hmany]; [now left | right].
      rewrite Hcode. lia.
    + now apply compareHashes_short.
Qed.

Lemma CompareHashStruct_bounds_witness :
  wellFormed test1
  /\ exportedFields test1
  /\ Z.of_nat (length test1) < 2 ^ 32
  /\ (exists r, CompareHashStruct printed (PointerToStruct test1) twelveZeros
                = Returns r)
  /\ CompareHashStruct printed (PointerToStruct test1) (Slice [1; 2; 3] []) = Panics.
Proof.
  assert (wellFormed test1) as Hwf by (apply (bool_decide_unpack _); exact I).
  assert (exportedFields test1) as Hex by (apply (bool_decide_unpack _); exact I).
  split; [exact Hwf |]. split; [exact Hex |]. split; [reflexivity |]. split.
  - apply (proj1 (CompareHashStruct_bounds printed test1 twelveZeros Hwf Hex eq_refl)).
    + apply (bool_decide_unpack _). exact I.
    + apply (bool_decide_unpack _). exact I.
  - apply (proj1 (proj2 (proj2 (proj2 (proj2
             (CompareHashStruct_bounds printed test1 (Slice [1; 2; 3] [])
                Hwf Hex eq_refl)))))).
    apply (bool_decide_unpack _). exact I.
Defined.

(** C10, as stated, fails in its last part: [noFieldsPadded] holds one
    parity word where none is recomputed for the record without fields, yet
    the full checksums agree and [CompareHashStruct] returns [nil] without
    reading it.  The slice accesses are moreover not all that can panic: on
    [withUnexported], with a stored hash inside the stated bounds,
    [CompareHashStruct] panics in [getFieldInfos] before any of them. *)
Lemma CompareHashStruct_longer_returns :
  wellFormed noFields
  /\ (8 <= len noFieldsPadded)%nat
  /\ (length (calculateHammingCode
                (List.map (checksum printed) (sortByName (List.map infoOf noFields))))
      < (len noFieldsPadded - 8) / 4)%nat
  /\ parityCount (length noFields) < Z.of_nat ((len noFieldsPadded - 8) / 4)
  /\ CompareHashStruct printed (PointerToStruct noFields) noFieldsPadded = Returns None
  /\ wellFormed withUnexported
  /\ (8 <= len twelveZeros)%nat
  /\ Z.of_nat ((len twelveZeros - 8) / 4) <= parityCount (length withUnexported)
  /\ CompareHashStruct printed (PointerToStruct withUnexported) twelveZeros = Panics.
Proof.
  split; [apply (bool_decide_unpack _); exact I |].
  split; [apply (bool_decide_unpack _); exact I |].
  split; [apply (bool_decide_unpack _); exact I |].
  split; [reflexivity |]. split; [reflexivity |].
  split; [apply (bool_decide_unpack _); exact I |].
  split; [apply (bool_decide_unpack _); exact I |].
  split; [vm_compute; discriminate | reflexivity].
Qed.

(** ** Single-field localisation *)

Section Mutation.

Context {V : Type}.
Variables (before after : list (structField V)) (f : structField V) (v' : V).

Hypothesis Hwf : wellFormed (before ++ f :: after).

Lemma mutation_tags :
  List.map tagOf (before ++ withValue f v' :: after)
  = List.map tagOf (before ++ f :: after).
Proof. now rewrite !List.map_app. Qed.

Lemma mutation_wellFormed : wellFormed (before ++ withValue f v' :: after).
Proof.
  destruct Hwf as [Hne Hnd]. split; [| now rewrite mutation_tags].
  rewrite Forall_app, Forall_cons in *. tauto.
Qed.

Lemma mutation_others (x : structField V) :
  x ∈ before ++ after -> tagOf x <> tagOf f.
Proof.
  destruct Hwf as [_ Hnd].
  rewrite List.map_app in Hnd. cbn [List.map] in Hnd.
  apply NoDup_app in Hnd as (_ & Hdisj & Hnd).
  apply NoDup_cons in Hnd as [Hnotin _].
  intros Hin Heq. apply elem_of_app in Hin as [Hin | Hin].
  - apply (Hdisj (tagOf x)).
    + apply list_elem_of_In, in_map, list_elem_of_In, Hin.
    + rewrite Heq. left.
  - apply Hnotin. rewrite <- Heq.
    apply list_elem_of_In, in_map, list_elem_of_In, Hin.
Qed.

Lemma change_others (l : list (structField V)) :
  (forall x, x ∈ l -> tagOf x <> tagOf f) ->
  List.map (setValue (tagOf f) v') (List.map infoOf l) = List.map infoOf l.
Proof.
  induction l as [| x l IH]; intros Hl; [reflexivity |]. cbn [List.map].
  rewrite IH by (intros y Hy; apply Hl; now right). f_equal.
  unfold setValue. cbn [infoOf name].
  destruct (String.eqb_spec (tagOf x) (tagOf f)) as [Heq | _]; [| reflexivity].
  exfalso. apply (Hl x); [left | exact Heq].
Qed.

Lemma mutation_infos :
  List.map infoOf (before ++ withValue f v' :: after)
  = List.map (setValue (tagOf f) v') (List.map infoOf (before ++ f :: after)).
Proof.
  rewrite !List.map_app. cbn [List.map].
  rewrite !change_others.
  - do 2 f_equal. unfold setValue. cbn [infoOf name]. now rewrite String.eqb_refl.
  - intros x Hx. apply mutation_others, elem_of_app. now right.
  - intros x Hx. apply mutation_others, elem_of_app. now left.
Qed.

Lemma mutation_sorted :
  sortByName (List.map infoOf (before ++ withValue f v' :: after))
  = List.map (setValue (tagOf f) v')
      (sortByName (List.map infoOf (before ++ f :: after))).
Proof.
  rewrite mutation_infos. apply sortByName_map.
  intros y. unfold setValue. now destruct (String.eqb (name y) (tagOf f)).
Qed.

(** The position of the changed field in the sorted sequence, and what the
    change does to the checksum vector. *)
Lemma mutation_checksums (Fprintf : V -> list Z) :
  exists i : nat,
    sortByName (List.map infoOf (before ++ f :: after)) !! i = Some (infoOf f)
    /\ List.map name (sortByName (List.map infoOf (before ++ withValue f v' :: after)))
       !! i = Some (tagOf f)
    /\ List.map (checksum Fprintf)
         (sortByName (List.map infoOf (before ++ withValue f v' :: after)))
       = <[i := checksum Fprintf (infoOf (withValue f v'))]>
           (List.map (checksum Fprintf) (sortByName (List.map infoOf (before ++ f :: after)))).
Proof.
  set (sorted := sortByName (List.map infoOf (before ++ f :: after))).
  assert (infoOf f ∈ sorted) as Hin.
  { unfold sorted. rewrite sortByName_Permutation.
    rewrite List.map_app. apply elem_of_app. right. left. }
  apply list_elem_of_lookup in Hin as [i Hi].
  assert (NoDup (List.map name sorted)) as Hnd.
  { unfold sorted. rewrite sortByName_Permutation.
    now apply getFieldInfos_NoDup. }
  exists i. rewrite mutation_sorted. fold sorted. split; [exact Hi |]. split.
  - change (List.map name (List.map (setValue (tagOf f) v') sorted))
      with (name <$> ((setValue (tagOf f) v') <$> sorted)).
    rewrite !list_lookup_fmap, Hi. cbn. unfold setValue. cbn [infoOf name].
    now rewrite String.eqb_refl.
  - apply list_eq. intros j.
    change (List.map (checksum Fprintf) (List.map (setValue (tagOf f) v') sorted))
      with (checksum Fprintf <$> ((setValue (tagOf f) v') <$> sorted)).
    change (List.map (checksum Fprintf) sorted) with (checksum Fprintf <$> sorted).
    destruct (decide (i = j)) as [<- | Hne].
    + rewrite list_lookup_insert_eq
        by (rewrite length_fmap; eapply lookup_lt_Some; eauto).
      rewrite !list_lookup_fmap, Hi. cbn. unfold setValue. cbn [infoOf name].
      now rewrite String.eqb_refl.
    + rewrite list_lookup_insert_ne by exact Hne.
      rewrite !list_lookup_fmap. destruct (sorted !! j) as [x |] eqn:Hj;
        [| reflexivity].
      cbn. unfold setValue.
      destruct (String.eqb_spec (name x) (tagOf f)) as [Heq | _]; [| reflexivity].
      exfalso. apply Hne. eapply (NoDup_lookup (List.map name sorted)); eauto.
      * change (List.map name sorted) with (name <$> sorted).
        now rewrite list_lookup_fmap, Hi.
      * change (List.map name sorted) with (name <$> sorted).
        rewrite list_lookup_fmap, Hj. cbn. now rewrite Heq.
Qed.

End Mutation.

(** Replacing a value leaves the package path of the field alone. *)
Lemma mutation_exported {V} (before after : list (structField V))
    (f : structField V) (v' : V) :
  exportedFields (before ++ f :: after) ->
  exportedFields (before ++ withValue f v' :: after).
Proof.
  unfold exportedFields. rewrite !Forall_app, !Forall_cons. tauto.
Qed.

(** C1, as the code has it.  Take a well-formed record whose fields are all
    exported, its fingerprint, and
    the record with the value of one field replaced.  When the replacement
    changes the 32-bit checksum of that field and the 64-bit full checksum,
    [CompareHashStruct] returns a [FieldChangedError] naming the tag of that
    field.  On checksum vectors: when exactly the entry at index [i] differs
    between the encoded vector and the current one, [findErrorLocation]
    returns [(true, i)].  The number of fields is taken below [2^32], the
    range of the conversion [uint32(len(fields))]. *)
Theorem single_change_localised :
  (forall (fieldHashes : list Z) (i : nat) (u v : Z),
      Z.of_nat (length fieldHashes) < 2 ^ 32 ->
      fieldHashes !! i = Some u -> u <> v ->
      findErrorLocation (<[i := v]> fieldHashes) (calculateHammingCode fieldHashes)
      = Returns (true, Z.of_nat i))
  /\ (forall {V} (Fprintf : V -> list Z) (before after : list (structField V))
        (f : structField V) (v' : V),
        wellFormed (before ++ f :: after) ->
        exportedFields (before ++ f :: after) ->
        Z.of_nat (length (before ++ f :: after)) < 2 ^ 32 ->
        checksum Fprintf (infoOf (withValue f v')) <> checksum Fprintf (infoOf f) ->
        fullChecksum Fprintf
          (sortByName (List.map infoOf (before ++ withValue f v' :: after)))
        <> fullChecksum Fprintf (sortByName (List.map infoOf (before ++ f :: after))) ->
        exists h,
          HashStruct Fprintf (PointerToStruct (before ++ f :: after)) = Returns (Ret h)
          /\ CompareHashStruct Fprintf
               (PointerToStruct (before ++ withValue f v' :: after)) h
             = Returns (Some (FieldChangedError (tagOf f)))).
Proof.
  split; [exact findErrorLocation_single |].
  intros V Fprintf before after f v' Hwf Hex Hn Hsum Hfull.
  rewrite (HashStruct_wellFormed Fprintf _ Hwf Hex). eexists. split; [reflexivity |].
  pose proof (mutation_wellFormed before after f v' Hwf) as Hwf'.
  pose proof (mutation_exported before after f v' Hex) as Hex'.
  rewrite (CompareHashStruct_compareHashes Fprintf _ _ _
             (getFieldInfos_wellFormed _ Hwf' Hex')).
  destruct (mutation_checksums before after f v' Hwf Fprintf)
    as (i & Hi & Hname & Hsums).
  set (sortedOld := sortByName (List.map infoOf (before ++ f :: after))) in *.
  set (sortedNew := sortByName (List.map infoOf (before ++ withValue f v' :: after)))
    in *.
  rewrite compareHashes_encoded.
  - rewrite (proj2 (Z.eqb_neq _ _)) by (intros Heq; apply Hfull; now symmetry).
    rewrite Hsums, (findErrorLocation_single _ i (checksum Fprintf (infoOf f))).
    + cbn [obind negb]. rewrite Nat2Z.id. unfold index. rewrite Hname. reflexivity.
    + rewrite length_map. unfold sortedOld.
      now rewrite length_sortByName, length_map.
    + change (List.map (checksum Fprintf) sortedOld)
        with (checksum Fprintf <$> sortedOld).
      now rewrite list_lookup_fmap, Hi.
    + intros Heq. apply Hsum. now symmetry.
  - apply fullChecksum_range.
  - apply calculateHammingCode_range, Forall_forall. intros x Hx.
    apply list_elem_of_In, in_map_iff in Hx as (info & <- & _).
    apply checksum_range.
Qed.

Lemma single_change_localised_witness :
  findErrorLocation (<[3%nat := 99]> [5; 6; 7; 8; 9]) (calculateHammingCode [5; 6; 7; 8; 9])
  = Returns (true, 3)
  /\ exists h,
      HashStruct printed (PointerToStruct test1) = Returns (Ret h)
      /\ CompareHashStruct printed (PointerToStruct test1Field4Changed) h
         = Returns (Some (FieldChangedError "Field4")).
Proof.
  split.
  - apply (proj1 single_change_localised [5; 6; 7; 8; 9] 3%nat 8 99).
    + reflexivity.
    + reflexivity.
    + discriminate.
  - apply (proj2 single_change_localised string printed
             [tagged "Field1" "(*string)test1"; tagged "Field2" "(*string)test2";
              tagged "Field3" "(*string)test3"]
             [tagged "Field5" "(*string)test5"]
             (tagged "Field4" "(*string)test4") "(*string)Field4 changed").
    + apply (bool_decide_unpack _). exact I.
    + apply (bool_decide_unpack _). exact I.
    + reflexivity.
    + vm_compute. discriminate.
    + vm_compute. discriminate.
Defined.

(** C1, as stated, fails: "boczw" and "xfbpa" in [Field1] are different
    values with the same field checksum.  Only the full checksum sees the
    change, no parity word differs, and the comparison reports a change
    without a field.  And on the well-formed record [withUnexported] there
    is no fingerprint to compare with: [HashStruct] panics, and so does
    [CompareHashStruct] once [Field1] was changed, for every stored hash. *)
Lemma single_change_not_localised :
  wellFormed collisionOld
  /\ List.map (serialized printed) collisionOld
     <> List.map (serialized printed) collisionNew
  /\ List.map tagOf collisionOld = List.map tagOf collisionNew
  /\ drop 1 collisionNew = drop 1 collisionOld
  /\ (exists h,
        HashStruct printed (PointerToStruct collisionOld) = Returns (Ret h)
        /\ CompareHashStruct printed (PointerToStruct collisionNew) h
           = Returns (Some (FieldChangedError "")))
  /\ wellFormed withUnexported
  /\ drop 1 withUnexportedChanged = drop 1 withUnexported
  /\ HashStruct printed (PointerToStruct withUnexported) = Panics
  /\ forall h,
      CompareHashStruct printed (PointerToStruct withUnexportedChanged) h = Panics.
Proof.
  split; [apply (bool_decide_unpack _); exact I |].
  split; [vm_compute; discriminate |].
  split; [reflexivity |]. split; [reflexivity |].
  split; [eexists; split; [vm_compute; reflexivity |]; vm_compute; reflexivity |].
  split; [apply (bool_decide_unpack _); exact I |].
  split; [reflexivity |]. split; [reflexivity |].
  intros h. reflexivity.
Qed.

(** ** Several changed fields *)

(** C2 does not hold of the code.  In the record of [TestHashStruct],
    changing both [Field1] and [Field2] makes parity words 0 and 1 differ
    and leaves word 2 alone: the location is 3 and the error names [Field3],
    which did not change.  The same on checksum vectors: entries 0 and 1
    change, entry 2 is reported. *)
Theorem two_changes_misreported :
  (exists h,
     HashStruct printed (PointerToStruct test1) = Returns (Ret h)
     /\ CompareHashStruct printed (PointerToStruct test1TwoChanged) h
        = Returns (Some (FieldChangedError "Field3")))
  /\ findErrorLocation [1; 1; 0] (calculateHammingCode [0; 0; 0]) = Returns (true, 2).
Proof.
  split; [| vm_compute; reflexivity].
  eexists. split; [vm_compute; reflexivity |]. vm_compute. reflexivity.
Qed.

(** ** The tests of the repository *)

(** [TestHashStatic]: the fingerprint the test expects. *)
Example TestHashStatic :
  HashStruct printed testStatic = Returns (Ret (Slice testStaticHash [])).
Proof. vm_compute. reflexivity. Qed.

(** [TestHashStruct]: no change, and a change of [Field1] alone. *)
Example TestHashStruct :
  exists h,
    HashStruct printed (PointerToStruct test1) = Returns (Ret h)
    /\ CompareHashStruct printed (PointerToStruct test1) h = Returns None
    /\ CompareHashStruct printed (PointerToStruct test1Field1Changed) h
       = Returns (Some (FieldChangedError "Field1")).
Proof.
  eexists. split; [vm_compute; reflexivity |].
  split; vm_compute; reflexivity.
Qed.

(** * Further properties of the package *)

(** ** The codec *)

(** A byte shifted to its place in a word, read at bit [n] of place [s']. *)
Lemma testbit_byte_at (w b s s' n : Z) :
  isByte b -> 0 <= n < 8 -> 0 <= s -> 0 <= s' -> s' + 8 <= w ->
  s = s' \/ s + 8 <= s' \/ s' + 8 <= s ->
  Z.testbit ((Z.shiftl b s) mod 2 ^ w) (n + s') = (s =? s') && Z.testbit b n.
Proof.
  intros Hb Hn Hs Hs' Hw Hcases. rewrite testbit_placed by lia.
  destruct Hcases as [<- | [Hlow | Hhigh]].
  - rewrite Z.eqb_refl. replace (n + s - s) with n by lia.
    now decide_cmp.
  - rewrite (proj2 (Z.eqb_neq s s')) by lia.
    rewrite (testbit_small 8 b (n + s' - s)) by (auto; lia).
    now rewrite andb_false_r.
  - rewrite (proj2 (Z.eqb_neq s s')) by lia.
    rewrite (proj2 (Z.leb_gt s (n + s'))) by lia. now rewrite andb_false_r.
Qed.

Lemma isUint64_lor (a b : Z) : isUint64 a -> isUint64 b -> isUint64 (Z.lor a b).
Proof.
  unfold isUint64. intros Ha Hb.
  assert (0 <= Z.lor a b) by (apply Z.lor_nonneg; lia).
  split; [assumption |].
  destruct (Z.eq_dec (Z.lor a b) 0) as [-> | Hnz]; [lia |].
  apply Z.log2_lt_pow2; [lia |]. rewrite Z.log2_lor by lia.
  destruct (Z.eq_dec a 0) as [-> | Ha0], (Z.eq_dec b 0) as [-> | Hb0];
    simpl in *; try lia.
  - rewrite Z.max_r by apply Z.log2_nonneg. apply Z.log2_lt_pow2; lia.
  - rewrite Z.max_l by apply Z.log2_nonneg. apply Z.log2_lt_pow2; lia.
  - apply Z.max_lub_lt; apply Z.log2_lt_pow2; lia.
Qed.

(** X1.  Decoding what [uint64ToSlice] encoded gives the value back, whatever
    bytes follow the eight: [uint64FromSlice] reads the first eight bytes
    only. *)
Theorem uint64_decode_encode (i : Z) (rest : list Z) :
  isUint64 i -> uint64FromSlice (uint64ToSlice i ++ rest) = Returns i.
Proof. apply uint64FromSlice_uint64ToSlice. Qed.

Lemma uint64_decode_encode_witness :
  isUint64 14695981039346656037
  /\ uint64FromSlice (uint64ToSlice 14695981039346656037 ++ [1; 2; 3])
     = Returns 14695981039346656037.
Proof.
  assert (isUint64 14695981039346656037) as H by (split; [discriminate | reflexivity]).
  split; [exact H |]. exact (uint64_decode_encode _ [1; 2; 3] H).
Defined.

(** X2.  [uint64FromSlice] panics exactly on a slice of fewer than eight
    elements.  On bytes it returns a value below [2^64], and encoding that
    value gives the first eight bytes back. *)
Theorem uint64_encode_decode (s : list Z) :
  ((length s < 8)%nat <-> uint64FromSlice s = Panics)
  /\ (Forall isByte s -> (8 <= length s)%nat ->
      exists i, uint64FromSlice s = Returns i
                /\ isUint64 i /\ uint64ToSlice i = take 8 s).
Proof.
  split.
  - split; [apply uint64FromSlice_panics |].
    intros Hp. destruct (Nat.lt_ge_cases (length s) 8) as [Hlt | Hge]; [exact Hlt |].
    destruct (uint64FromSlice_returns s Hge) as [i Hi]. congruence.
  - intros Hbytes Hlen.
    destruct s as [| b0 [| b1 [| b2 [| b3 [| b4 [| b5 [| b6 [| b7 s]]]]]]]];
      simpl in Hlen; try lia.
    repeat match goal with
           | H : Forall isByte (_ :: _) |- _ =>
               let Hb := fresh "Hb" in apply Forall_cons in H as [Hb H]
           end.
    eexists. split; [reflexivity |]. split.
    + repeat apply isUint64_lor; try apply isUint64_uint64.
      unfold isUint64. lia.
    + unfold uint64ToSlice. cbn [take].
      repeat f_equal;
        (apply Z.bits_inj'; intros n Hn;
         rewrite testbit_byteAt by lia;
         destruct (Z.ltb_spec n 8) as [Hlt | Hge];
         [ cbn [andb]; rewrite !Z.lor_spec, Z.bits_0; unfold uint64;
           rewrite !testbit_byte_at by (auto; lia);
           cbn; rewrite ?orb_false_r; reflexivity
         | cbn [andb]; symmetry; apply (testbit_small 8); [assumption | lia] ]).
Qed.

Lemma uint64_encode_decode_witness :
  Forall isByte [1; 2; 3; 4; 5; 6; 7; 8; 9]
  /\ (8 <= length [1; 2; 3; 4; 5; 6; 7; 8; 9])%nat
  /\ exists i, uint64FromSlice [1; 2; 3; 4; 5; 6; 7; 8; 9] = Returns i
               /\ uint64ToSlice i = [1; 2; 3; 4; 5; 6; 7; 8].
Proof.
  assert (Forall isByte [1; 2; 3; 4; 5; 6; 7; 8; 9]) as Hb
      by (repeat constructor; discriminate).
  assert (8 <= length [1; 2; 3; 4; 5; 6; 7; 8; 9])%nat as Hl
      by (apply (bool_decide_unpack _); exact I).
  split; [exact Hb |]. split; [exact Hl |].
  destruct (proj2 (uint64_encode_decode [1; 2; 3; 4; 5; 6; 7; 8; 9]) Hb Hl)
    as (i & Hi & _ & Henc).
  exists i. split; [exact Hi | exact Henc].
Defined.

Lemma bytes_of_uint32 (b0 b1 b2 b3 : Z) :
  isByte b0 -> isByte b1 -> isByte b2 -> isByte b3 ->
  uint32SliceToByteSlice
    [Z.lor (Z.lor (Z.lor (uint32 (Z.shiftl b0 0)) (uint32 (Z.shiftl b1 8)))
              (uint32 (Z.shiftl b2 16))) (uint32 (Z.shiftl b3 24))]
  = [b0; b1; b2; b3].
Proof.
  intros H0 H1 H2 H3. cbn [uint32SliceToByteSlice].
  repeat f_equal;
    (apply Z.bits_inj'; intros n Hn;
     rewrite testbit_byteAt by lia;
     destruct (Z.ltb_spec n 8) as [Hlt | Hge];
     [ cbn [andb]; rewrite !Z.lor_spec; unfold uint32;
       rewrite !testbit_byte_at by (auto; lia);
       cbn; rewrite ?orb_false_r; reflexivity
     | cbn [andb]; symmetry; apply (testbit_small 8); [assumption | lia] ]).
Qed.

Lemma uint32SliceToByteSlice_cons (w : Z) (ws : list Z) :
  uint32SliceToByteSlice (w :: ws)
  = uint32SliceToByteSlice [w] ++ uint32SliceToByteSlice ws.
Proof. reflexivity. Qed.

Lemma fromByteLoop_bytes (s : list Z) (n i : nat) :
  Forall isByte s -> (4 * (i + n) <= length s)%nat ->
  exists out,
    fromByteLoop s i n = Returns out
    /\ uint32SliceToByteSlice out = take (4 * n) (drop (4 * i) s).
Proof.
  intros Hbytes. revert i. induction n as [| n IH]; intros i Hlen.
  - exists []. split; [reflexivity |]. now rewrite Nat.mul_0_r.
  - cbn [fromByteLoop]. unfold index.
    destruct (lookup_lt_is_Some_2 s (i * 4 + 0)) as [b0 H0]; [lia |].
    destruct (lookup_lt_is_Some_2 s (i * 4 + 1)) as [b1 H1]; [lia |].
    destruct (lookup_lt_is_Some_2 s (i * 4 + 2)) as [b2 H2]; [lia |].
    destruct (lookup_lt_is_Some_2 s (i * 4 + 3)) as [b3 H3]; [lia |].
    rewrite H0, H1, H2, H3. cbn [obind].
    destruct (IH (S i)) as (out & -> & Hout); [lia |]. cbn [obind].
    eexists. split; [reflexivity |].
    rewrite uint32SliceToByteSlice_cons, Hout.
    rewrite Forall_lookup in Hbytes.
    rewrite bytes_of_uint32 by eauto.
    replace (4 * S n)%nat with (4 + 4 * n)%nat by lia.
    replace (4 * S i)%nat with (4 * i + 4)%nat by lia.
    rewrite <- drop_drop, <- take_take_drop. f_equal.
    apply list_eq. intros k.
    destruct (Nat.lt_ge_cases k 4) as [Hk | Hk].
    + rewrite lookup_take_lt by exact Hk. rewrite lookup_drop.
      destruct k as [| [| [| [| k]]]]; try lia; cbn [lookup list_lookup];
        [ replace (4 * i + 0)%nat with (i * 4 + 0)%nat by lia
        | replace (4 * i + 1)%nat with (i * 4 + 1)%nat by lia
        | replace (4 * i + 2)%nat with (i * 4 + 2)%nat by lia
        | replace (4 * i + 3)%nat with (i * 4 + 3)%nat by lia ];
        congruence.
    + rewrite lookup_take_ge by exact Hk.
      apply lookup_ge_None_2. simpl. lia.
Qed.

(** X3.  Decoding the bytes [uint32SliceToByteSlice] laid out for a sequence
    of [uint32] words gives the words back. *)
Theorem uint32_decode_encode (ws : list Z) :
  Forall isUint32 ws ->
  uint32SliceFromByteSlice (uint32SliceToByteSlice ws) = Returns ws.
Proof. apply uint32SliceFromByteSlice_toBytes. Qed.

Lemma uint32_decode_encode_witness :
  Forall isUint32 [4294967295; 0; 305419896]
  /\ uint32SliceFromByteSlice (uint32SliceToByteSlice [4294967295; 0; 305419896])
     = Returns [4294967295; 0; 305419896].
Proof.
  assert (Forall isUint32 [4294967295; 0; 305419896]) as H
      by (repeat constructor; discriminate).
  split; [exact H |]. exact (uint32_decode_encode _ H).
Defined.

(** X4.  [uint32SliceFromByteSlice] never panics and returns [len(s)/4]
    words.  On bytes, encoding the words again gives back the slice cut to a
    whole number of words: up to three trailing bytes are dropped. *)
Theorem uint32_encode_decode (s : list Z) :
  exists out,
    uint32SliceFromByteSlice s = Returns out
    /\ length out = (length s / 4)%nat
    /\ (Forall isByte s ->
        uint32SliceToByteSlice out = take (4 * (length s / 4)) s).
Proof.
  destruct (uint32SliceFromByteSlice_returns s) as (out & Hout & Hlen).
  exists out. split; [exact Hout |]. split; [exact Hlen |]. intros Hbytes.
  destruct (fromByteLoop_bytes s (length s / 4) 0 Hbytes) as (out' & Hout' & Henc).
  { pose proof (Nat.Div0.mul_div_le (length s) 4). lia. }
  unfold uint32SliceFromByteSlice in Hout. rewrite Hout in Hout'.
  injection Hout' as <-. exact Henc.
Qed.

Lemma uint32_encode_decode_witness :
  Forall isByte [1; 2; 3; 4; 5; 6]
  /\ exists out, uint32SliceFromByteSlice [1; 2; 3; 4; 5; 6] = Returns out
                 /\ uint32SliceToByteSlice out = [1; 2; 3; 4].
Proof.
  assert (Forall isByte [1; 2; 3; 4; 5; 6]) as Hb
      by (repeat constructor; discriminate).
  split; [exact Hb |].
  destruct (uint32_encode_decode [1; 2; 3; 4; 5; 6]) as (out & Hout & _ & Henc).
  exists out. split; [exact Hout | exact (Henc Hb)].
Defined.

(** ** The Hamming code *)

(** X5.  [log2OfXPlusOne] returns the bit length of its argument: [0] for
    [0] only, and otherwise the [r <= 32] with [2^(r-1) <= x < 2^r]. *)
Theorem log2OfXPlusOne_bit_length (x : Z) :
  isUint32 x ->
  0 <= log2OfXPlusOne x <= 32
  /\ x < 2 ^ log2OfXPlusOne x
  /\ (0 < x -> 2 ^ (log2OfXPlusOne x - 1) <= x)
  /\ (log2OfXPlusOne x = 0 <-> x = 0).
Proof.
  intros Hx. pose proof (log2OfXPlusOne_range x Hx) as Hr.
  rewrite log2OfXPlusOne_spec in * by exact Hx. unfold isUint32 in Hx.
  destruct (Z.eq_dec x 0) as [-> | Hnz].
  - change (Z.log2_up (0 + 1)) with 0. repeat split; lia.
  - pose proof (Z.log2_up_spec (x + 1) ltac:(lia)) as [Hlow Hhigh].
    replace (Z.pred (Z.log2_up (x + 1))) with (Z.log2_up (x + 1) - 1) in Hlow by lia.
    repeat split; try lia.
    intros Hzero. rewrite Hzero in Hhigh. simpl in Hhigh. lia.
Qed.

Lemma log2OfXPlusOne_bit_length_witness :
  isUint32 12 /\ log2OfXPlusOne 12 = 4 /\ 2 ^ (4 - 1) <= 12 < 2 ^ 4.
Proof.
  assert (isUint32 12) as H by (split; [discriminate | reflexivity]).
  split; [exact H |]. split; [reflexivity |].
  destruct (log2OfXPlusOne_bit_length 12 H) as (_ & Hhigh & Hlow & _).
  split; [exact (Hlow eq_refl) | exact Hhigh].
Defined.

Lemma xorSelected_zip_with (k pos : Z) (a b : list Z) :
  length a = length b ->
  xorSelected k pos (zip_with Z.lxor a b)
  = Z.lxor (xorSelected k pos a) (xorSelected k pos b).
Proof.
  revert pos b. induction a as [| x a IH]; intros pos [| y b] Hlen;
    try discriminate; simpl.
  - reflexivity.
  - rewrite IH by (simpl in Hlen; lia).
    destruct (Z.testbit pos k); xor_bits.
Qed.

(** X6.  The parity code is linear: for two checksum vectors of one length,
    the code of their element-wise XOR is the word-wise XOR of their codes.
    The syndrome of a change is thus the code of the differences alone. *)
Theorem calculateHammingCode_linear (a b : list Z) :
  length a = length b ->
  calculateHammingCode (zip_with Z.lxor a b)
  = zip_with Z.lxor (calculateHammingCode a) (calculateHammingCode b).
Proof.
  intros Hlen.
  assert (length (zip_with Z.lxor a b) = length a) as Hzip
      by (rewrite length_zip_with; lia).
  pose proof (length_calculateHammingCode a) as Ha.
  pose proof (length_calculateHammingCode b) as Hb.
  pose proof (length_calculateHammingCode (zip_with Z.lxor a b)) as Hab.
  rewrite Hzip in Hab. rewrite <- Hlen in Hb.
  apply list_eq. intros k. rewrite lookup_zip_with.
  destruct (Nat.lt_ge_cases k (length (calculateHammingCode a))) as [Hk | Hk].
  - rewrite !lookup_calculateHammingCode by lia. cbn.
    now rewrite xorSelected_zip_with.
  - rewrite (lookup_ge_None_2 (calculateHammingCode a)) by lia.
    rewrite lookup_ge_None_2 by lia. reflexivity.
Qed.

Lemma calculateHammingCode_linear_witness :
  length [1; 2; 3] = length [4; 4; 4]
  /\ calculateHammingCode [Z.lxor 1 4; Z.lxor 2 4; Z.lxor 3 4]
     = zip_with Z.lxor (calculateHammingCode [1; 2; 3]) (calculateHammingCode [4; 4; 4]).
Proof.
  split; [reflexivity |]. exact (calculateHammingCode_linear [1; 2; 3] [4; 4; 4] eq_refl).
Defined.

(** X7.  Against the code of the same checksum vector, whole or cut short
    after any number of words, [findErrorLocation] finds no location. *)
Theorem findErrorLocation_unchanged (fields : list Z) (m : nat) :
  findErrorLocation fields (take m (calculateHammingCode fields)) = Returns (false, 0).
Proof.
  unfold findErrorLocation.
  destruct (locateLoop_bits (take m (calculateHammingCode fields))
              (calculateHammingCode fields)) as (loc & -> & Hbits).
  { rewrite length_take. lia. }
  cbn [obind]. assert (loc = 0) as ->; [| reflexivity].
  apply Z.bits_inj'. intros n Hn. rewrite Z.bits_0.
  replace n with (Z.of_nat (Z.to_nat n)) by lia. rewrite Hbits.
  unfold differsAt. rewrite lookup_take.
  destruct (decide (Z.to_nat n < m)%nat); [| now rewrite andb_false_r].
  destruct (calculateHammingCode fields !! Z.to_nat n); [| now rewrite andb_false_r].
  now rewrite Z.eqb_refl, andb_false_r.
Qed.

Lemma lxor_twice (x a b : Z) : (x =? Z.lxor (Z.lxor x a) b) = (a =? b).
Proof.
  rewrite Z.lxor_assoc.
  destruct (Z.eqb_spec a b) as [-> | Hne].
  - rewrite Z.lxor_nilpotent, Z.lxor_0_r. apply Z.eqb_refl.
  - apply Z.eqb_neq. intros Heq. symmetry in Heq.
    apply lxor_cancel, Z.lxor_eq in Heq. contradiction.
Qed.

(** X8.  Two changed checksums, at the indices [i] and [j].  When the two
    differences (old XOR new) are different, the location computed is the
    bitwise OR of the positions [i+1] and [j+1]; when they are equal, it is
    their XOR.  [findErrorLocation] reports that location, less one, whenever
    it is at most the number of fields, and no location otherwise. *)
Theorem findErrorLocation_two_changes (old : list Z) (i j : nat) (u u' v v' : Z) :
  Z.of_nat (length old) < 2 ^ 32 ->
  i <> j -> old !! i = Some u -> old !! j = Some v -> u <> u' -> v <> v' ->
  findErrorLocation (<[j := v']> (<[i := u']> old)) (calculateHammingCode old)
  = let location :=
      if Z.lxor u u' =? Z.lxor v v'
      then Z.lxor (Z.of_nat i + 1) (Z.of_nat j + 1)
      else Z.lor (Z.of_nat i + 1) (Z.of_nat j + 1) in
    if location <=? Z.of_nat (length old) then Returns (true, location - 1)
    else Returns (false, 0).
Proof.
  intros Hn Hij Hu Hv Hu' Hv'. cbv zeta.
  set (new := <[j := v']> (<[i := u']> old)).
  set (location := if Z.lxor u u' =? Z.lxor v v'
                   then Z.lxor (Z.of_nat i + 1) (Z.of_nat j + 1)
                   else Z.lor (Z.of_nat i + 1) (Z.of_nat j + 1)).
  assert (length new = length old) as Hlen by (unfold new; now rewrite !length_insert).
  assert (i < length old)%nat as Hi by (eapply lookup_lt_Some; eauto).
  assert (j < length old)%nat as Hj by (eapply lookup_lt_Some; eauto).
  pose proof (hammingCode_length_parityCount old Hn) as Hpo.
  assert (length (calculateHammingCode new) = Z.to_nat (parityCount (length old)))
    as Hpn by (rewrite hammingCode_length_parityCount; rewrite Hlen; auto).
  pose proof (parityCount_range _ Hn) as Hp.
  pose proof (parityCount_fits (length old)) as Hfit.
  assert (Z.lxor u u' <> 0) as Hdu by (intros H0; now apply Z.lxor_eq in H0).
  assert (Z.lxor v v' <> 0) as Hdv by (intros H0; now apply Z.lxor_eq in H0).
  unfold findErrorLocation. fold new.
  destruct (locateLoop_bits (calculateHammingCode old) (calculateHammingCode new))
    as (loc & Hloc & Hbits); [lia |].
  rewrite Hloc. cbn [obind].
  assert (loc = location) as ->.
  { apply Z.bits_inj'. intros m Hm.
    replace m with (Z.of_nat (Z.to_nat m)) by lia. rewrite Hbits.
    unfold differsAt.
    assert (Z.testbit location (Z.of_nat (Z.to_nat m))
            = if Z.lxor u u' =? Z.lxor v v'
              then xorb (Z.testbit (Z.of_nat i + 1) (Z.of_nat (Z.to_nat m)))
                        (Z.testbit (Z.of_nat j + 1) (Z.of_nat (Z.to_nat m)))
              else Z.testbit (Z.of_nat i + 1) (Z.of_nat (Z.to_nat m))
                   || Z.testbit (Z.of_nat j + 1) (Z.of_nat (Z.to_nat m))) as ->.
    { unfold location. destruct (Z.lxor u u' =? Z.lxor v v').
      - apply Z.lxor_spec.
      - apply Z.lor_spec. }
    destruct (Nat.lt_ge_cases (Z.to_nat m) (Z.to_nat (parityCount (length old))))
      as [Hlt | Hge].
    - rewrite !lookup_calculateHammingCode by lia. unfold new.
      rewrite (xorSelected_insert _ _ _ _ v v')
        by (rewrite list_lookup_insert_ne by exact Hij; exact Hv).
      rewrite (xorSelected_insert _ _ _ _ u u' Hu).
      rewrite (proj2 (Z.ltb_lt _ _)) by lia. cbn [andb].
      rewrite lxor_twice.
      replace (1 + Z.of_nat i) with (Z.of_nat i + 1) by lia.
      replace (1 + Z.of_nat j) with (Z.of_nat j + 1) by lia.
      destruct (Z.testbit (Z.of_nat i + 1) (Z.of_nat (Z.to_nat m))),
               (Z.testbit (Z.of_nat j + 1) (Z.of_nat (Z.to_nat m))); cbv iota.
      + now destruct (Z.lxor u u' =? Z.lxor v v').
      + rewrite (proj2 (Z.eqb_neq (Z.lxor u u') 0)) by exact Hdu.
        now destruct (Z.lxor u u' =? Z.lxor v v').
      + rewrite (proj2 (Z.eqb_neq 0 (Z.lxor v v'))) by (intros H0; now apply Hdv).
        now destruct (Z.lxor u u' =? Z.lxor v v').
      + now destruct (Z.lxor u u' =? Z.lxor v v').
    - rewrite (lookup_ge_None_2 (calculateHammingCode old)) by lia.
      rewrite andb_false_r.
      rewrite (testbit_small (parityCount (length old)) (Z.of_nat i + 1)) by lia.
      rewrite (testbit_small (parityCount (length old)) (Z.of_nat j + 1)) by lia.
      now destruct (Z.lxor u u' =? Z.lxor v v'). }
  assert (0 < location < 2 ^ 32 \/ Z.of_nat (length old) < location) as Hrange.
  { assert (0 <= location /\ location <> 0) as [Hnonneg Hnz].
    { unfold location. destruct (Z.lxor u u' =? Z.lxor v v').
      - split; [apply Z.lxor_nonneg; lia |].
        intros H0. apply Z.lxor_eq in H0. lia.
      - split; [apply Z.lor_nonneg; lia |].
        intros H0. apply Z.lor_eq_0_iff in H0. lia. }
    destruct (Z.le_gt_cases location (Z.of_nat (length old))); [left | right]; lia. }
  assert (uint32 (Z.of_nat (length new)) = Z.of_nat (length old)) as ->
      by (rewrite Hlen; unfold uint32; apply Z.mod_small; lia).
  destruct (Z.leb_spec location (Z.of_nat (length old))) as [Hle | Hgt].
  - rewrite (proj2 (Z.eqb_neq _ _)) by lia.
    rewrite (proj2 (Z.ltb_ge _ _)) by lia. cbn [orb].
    unfold uint32. rewrite Z.mod_small by lia. reflexivity.
  - rewrite (proj2 (Z.ltb_lt _ _)) by lia. now rewrite orb_true_r.
Qed.

Lemma findErrorLocation_two_changes_witness :
  findErrorLocation (<[2%nat := 70]> (<[0%nat := 50]> [5; 6; 7; 8; 9]))
    (calculateHammingCode [5; 6; 7; 8; 9])
  = Returns (true, 2)
  /\ findErrorLocation (<[3%nat := 80]> (<[2%nat := 70]> [5; 6; 7; 8; 9]))
       (calculateHammingCode [5; 6; 7; 8; 9])
     = Returns (false, 0).
Proof.
  split.
  - apply (findErrorLocation_two_changes [5; 6; 7; 8; 9] 0 2 5 50 7 70);
      try reflexivity; discriminate.
  - apply (findErrorLocation_two_changes [5; 6; 7; 8; 9] 2 3 7 70 8 80);
      try reflexivity; discriminate.
Defined.

(** ** getFieldInfos, getHashes and hashInfo *)

Lemma collectFields_offender {V} (good rest : list (structField V))
    (f : structField V) (tags : gset string) (acc : list (fieldInfo V)) :
  Forall (fun g => tagOf g <> "") good ->
  NoDup (List.map tagOf good) ->
  exportedFields good ->
  (forall t, t ∈ List.map tagOf good -> t ∉ tags) ->
  (tagOf f = "" ->
   collectFields (good ++ f :: rest) tags acc = Returns (Fail (ErrNoTag (Name f))))
  /\ (tagOf f <> "" -> tagOf f ∈ List.map tagOf good \/ tagOf f ∈ tags ->
      collectFields (good ++ f :: rest) tags acc
      = Returns (Fail (ErrTagReused (tagOf f))))
  /\ (tagOf f <> "" -> tagOf f ∉ List.map tagOf good -> tagOf f ∉ tags ->
      PkgPath f <> "" ->
      collectFields (good ++ f :: rest) tags acc = Panics).
Proof.
  revert tags acc.
  induction good as [| g good IH]; intros tags acc Hne Hnd Hex Hfresh.
  - cbn [app collectFields]. fold (tagOf f). split; [| split].
    + intros ->. reflexivity.
    + intros Hf [Hin | Hin]; [simpl in Hin; now apply elem_of_nil in Hin |].
      destruct (String.eqb_spec (tagOf f) "") as [| _]; [contradiction |].
      destruct (decide (tagOf f ∈ tags)); [reflexivity | contradiction].
    + intros Hf _ Hnotin Hpkg.
      destruct (String.eqb_spec (tagOf f) "") as [| _]; [contradiction |].
      destruct (decide (tagOf f ∈ tags)); [contradiction |].
      now rewrite Interface_unexported.
  - cbn [app collectFields]. fold (tagOf g).
    apply Forall_cons in Hne as [Hg Hne]. cbn [List.map] in Hnd.
    apply NoDup_cons in Hnd as [Hnotin Hnd].
    apply Forall_cons in Hex as [Hpg Hex].
    destruct (String.eqb_spec (tagOf g) "") as [| _]; [contradiction |].
    destruct (decide (tagOf g ∈ tags)) as [Hin | _].
    { exfalso. apply (Hfresh (tagOf g)); [simpl; left | exact Hin]. }
    rewrite Interface_exported by exact Hpg. cbn [obind].
    destruct (IH ({[tagOf g]} ∪ tags) (acc ++ [FieldInfo (tagOf g) (Value g)]))
      as (Hempty & Hdup & Hpanic); try assumption.
    { intros t Ht. rewrite elem_of_union, elem_of_singleton.
      intros [-> | Hin]; [contradiction |].
      apply (Hfresh t); [simpl; right; exact Ht | exact Hin]. }
    split; [exact Hempty |]. split.
    + intros Hf Hin. apply Hdup; [exact Hf |].
      rewrite elem_of_union, elem_of_singleton.
      destruct Hin as [Hin | Hin]; [| now right; right].
      simpl in Hin.
      apply elem_of_cons in Hin as [-> | Hin]; [right; now left | now left].
    + intros Hf Hnew Hnotags Hpkg. apply Hpanic; try assumption.
      * intros Hin. apply Hnew. simpl. now right.
      * rewrite elem_of_union, elem_of_singleton. intros [Heq | Hin].
        -- apply Hnew. rewrite Heq. simpl. left.
        -- contradiction.
Qed.

(** X9.  [getFieldInfos] stops at the first field, in declaration order,
    that breaks the contract: when the fields before [f] are exported and
    have distinct non-empty tags, a missing or empty tag on [f] gives "the
    field <Name of f> has no tag infohash", a tag of [f] already used before
    gives "the tag <tag> is used more than once", and a fresh tag on an
    unexported [f] ends in the panic of [Interface], whatever is wrong with
    later fields. *)
Theorem getFieldInfos_first_offender {V} (good rest : list (structField V))
    (f : structField V) :
  wellFormed good ->
  exportedFields good ->
  (tagOf f = "" ->
   getFieldInfos (PointerToStruct (good ++ f :: rest))
   = Returns (Fail (ErrNoTag (Name f))))
  /\ (tagOf f <> "" -> tagOf f ∈ List.map tagOf good ->
      getFieldInfos (PointerToStruct (good ++ f :: rest))
      = Returns (Fail (ErrTagReused (tagOf f))))
  /\ (tagOf f <> "" -> tagOf f ∉ List.map tagOf good -> PkgPath f <> "" ->
      getFieldInfos (PointerToStruct (good ++ f :: rest)) = Panics).
Proof.
  intros [Hne Hnd] Hex.
  destruct (collectFields_offender good rest f ∅ [] Hne Hnd Hex)
    as (Hempty & Hdup & Hpanic).
  { intros t _. apply not_elem_of_empty. }
  split; [| split].
  - intros Hf. cbn [getFieldInfos]. now rewrite Hempty.
  - intros Hf Hin. cbn [getFieldInfos]. rewrite Hdup; auto.
  - intros Hf Hnew Hpkg. cbn [getFieldInfos]. rewrite Hpanic; auto.
    apply not_elem_of_empty.
Qed.

Lemma getFieldInfos_first_offender_witness :
  wellFormed test1
  /\ exportedFields test1
  /\ getFieldInfos (PointerToStruct (test1 ++ StructField "Extra" "" [] "(*int)0" :: tagUsedTwice))
     = Returns (Fail (ErrNoTag "Extra"))
  /\ getFieldInfos (PointerToStruct (test1 ++ tagged "Field3" "(*int)0" :: tagMissing))
     = Returns (Fail (ErrTagReused "Field3"))
  /\ getFieldInfos (PointerToStruct (test1 ++ unexported "field6" "(*int)0" :: tagMissing))
     = Panics.
Proof.
  assert (wellFormed test1) as Hwf by (apply (bool_decide_unpack _); exact I).
  assert (exportedFields test1) as Hex by (apply (bool_decide_unpack _); exact I).
  split; [exact Hwf |]. split; [exact Hex |]. split; [| split].
  - apply (proj1 (getFieldInfos_first_offender test1 tagUsedTwice
                    (StructField "Extra" "" [] "(*int)0") Hwf Hex)).
    reflexivity.
  - apply (proj1 (proj2 (getFieldInfos_first_offender test1 tagMissing
                           (tagged "Field3" "(*int)0") Hwf Hex))).
    + discriminate.
    + apply (bool_decide_unpack _). exact I.
  - apply (proj2 (proj2 (getFieldInfos_first_offender test1 tagMissing
                           (unexported "field6" "(*int)0") Hwf Hex))).
    + discriminate.
    + apply (bool_decide_unpack _). exact I.
    + discriminate.
Defined.

(** X10.  The field checksums of [getHashes] do not depend on the
    neighbours: the checksums of [l1 ++ l2] are those of [l1] followed by
    those of [l2], so replacing one entry changes its checksum alone.  The
    full checksum is a running hash: that of [l1 ++ l2] continues the one of
    [l1] with the names and printed values of [l2]. *)
Theorem getHashes_app {V} (Fprintf : V -> list Z) (l1 l2 : list (fieldInfo V)) :
  snd (getHashes Fprintf (l1 ++ l2))
  = snd (getHashes Fprintf l1) ++ snd (getHashes Fprintf l2)
  /\ fst (getHashes Fprintf (l1 ++ l2))
     = write64 (fst (getHashes Fprintf l1))
         (concat (List.map (fun info => bytesOf (name info) ++ Fprintf (fieldValue info))
                    l2))
  /\ forall (a b : fieldInfo V) (k : nat),
      k <> length l1 ->
      snd (getHashes Fprintf (l1 ++ a :: l2)) !! k
      = snd (getHashes Fprintf (l1 ++ b :: l2)) !! k.
Proof.
  rewrite !getHashes_spec. cbn [fst snd]. split; [apply List.map_app |]. split.
  - unfold fullChecksum. now rewrite List.map_app, concat_app, write64_app.
  - intros a b k Hk. rewrite !getHashes_spec. cbn [snd].
    rewrite !List.map_app. cbn [List.map].
    destruct (Nat.lt_ge_cases k (length l1)) as [Hlt | Hge].
    + rewrite !lookup_app_l by (rewrite length_map; exact Hlt). reflexivity.
    + rewrite !lookup_app_r by (rewrite length_map; exact Hge).
      rewrite length_map.
      destruct (k - length l1)%nat as [| d] eqn:Hd; [lia | reflexivity].
Qed.

(** X11.  [getHashes] returns one checksum for each field, each a [uint32],
    and a full checksum that is a [uint64]; without fields the full checksum
    is the FNV offset basis and there is no field checksum. *)
Theorem getHashes_shape {V} (Fprintf : V -> list Z) (fieldInfos : list (fieldInfo V)) :
  length (snd (getHashes Fprintf fieldInfos)) = length fieldInfos
  /\ Forall isUint32 (snd (getHashes Fprintf fieldInfos))
  /\ isUint64 (fst (getHashes Fprintf fieldInfos))
  /\ (fieldInfos = [] -> getHashes Fprintf fieldInfos = (14695981039346656037, [])).
Proof.
  rewrite getHashes_spec. cbn [fst snd]. split; [apply length_map |]. split.
  - apply Forall_forall. intros x Hx.
    apply list_elem_of_In, in_map_iff in Hx as (info & <- & _).
    apply checksum_range.
  - split; [apply fullChecksum_range |]. intros ->. reflexivity.
Qed.

(** X12.  [hashInfo] never fails, on any sequence of fields, sorted or not.
    The fingerprint has no spare capacity and [8 + 4 * len(hammingCode)]
    bytes, each below 256; its first eight bytes decode to the full checksum
    of [getHashes] and the bytes after them to the Hamming code of the field
    checksums. *)
Theorem hashInfo_layout {V} (Fprintf : V -> list Z) (fieldInfos : list (fieldInfo V)) :
  exists h head8 tail,
    hashInfo Fprintf fieldInfos = Ret h
    /\ spare h = []
    /\ Forall isByte (elems h)
    /\ len h
       = (8 + 4 * length (calculateHammingCode (snd (getHashes Fprintf fieldInfos))))%nat
    /\ sliceTo h 8 = Returns head8
    /\ uint64FromSlice (elems head8) = Returns (fst (getHashes Fprintf fieldInfos))
    /\ sliceFrom h 8 = Returns tail
    /\ uint32SliceFromByteSlice (elems tail)
       = Returns (calculateHammingCode (snd (getHashes Fprintf fieldInfos))).
Proof.
  unfold hashInfo. rewrite getHashes_spec. cbn [fst snd].
  set (full := fullChecksum Fprintf fieldInfos).
  set (code := calculateHammingCode (List.map (checksum Fprintf) fieldInfos)).
  assert (Forall isUint32 code) as Hcode.
  { apply calculateHammingCode_range, Forall_forall. intros x Hx.
    apply list_elem_of_In, in_map_iff in Hx as (info & <- & _).
    apply checksum_range. }
  assert (len (Slice (uint64ToSlice full ++ uint32SliceToByteSlice code) [])
          = (8 + 4 * length code)%nat) as Hlen.
  { unfold len. cbn [elems].
    now rewrite length_app, length_uint64ToSlice, length_uint32SliceToByteSlice. }
  eexists _, _, _. split; [reflexivity |]. split; [reflexivity |].
  split; [| split; [exact Hlen |]].
  - cbn [elems]. apply Forall_app. split.
    + repeat constructor; apply isByte_byte.
    + clear. induction code as [| w code IH]; cbn [uint32SliceToByteSlice].
      * constructor.
      * repeat (constructor; [apply isByte_byte |]). exact IH.
  - unfold sliceTo, sliceFrom, cap. rewrite Hlen. cbn [elems spare].
    rewrite length_app, length_uint64ToSlice, app_nil_r.
    rewrite (proj2 (Nat.leb_le 8 _)) by lia.
    rewrite (proj2 (Nat.leb_le 8 _)) by lia.
    split; [reflexivity |]. cbn [elems].
    rewrite take_app_length' by reflexivity.
    rewrite drop_app_length' by reflexivity.
    pose proof (uint64FromSlice_uint64ToSlice full [] (fullChecksum_range Fprintf _))
      as Hdec.
    rewrite app_nil_r in Hdec.
    split; [exact Hdec |]. split; [reflexivity |].
    now apply uint32SliceFromByteSlice_toBytes.
Qed.

(** ** CompareHashStruct *)

Lemma parityCount_mono (n m : nat) : (n <= m)%nat -> parityCount n <= parityCount m.
Proof. intros Hnm. unfold parityCount. apply Z.log2_up_le_mono. lia. Qed.

(** X13.  With a stored hash of at least eight bytes [CompareHashStruct]
    reads nothing beyond its length: the result is the same whatever the
    array holds between [len] and [cap]. *)
Theorem CompareHashStruct_spare {V} (Fprintf : V -> list Z) (obj : object V)
    (bytes sp1 sp2 : list Z) :
  (8 <= length bytes)%nat ->
  CompareHashStruct Fprintf obj (Slice bytes sp1)
  = CompareHashStruct Fprintf obj (Slice bytes sp2).
Proof.
  intros Hlen. destruct (getFieldInfos obj) as [[fis | e] |] eqn:Hg.
  - rewrite !(CompareHashStruct_compareHashes Fprintf obj fis _ Hg).
    destruct (compareHashes_head (List.map name fis) (fullChecksum Fprintf fis)
                (List.map (checksum Fprintf) fis) (Slice bytes sp1))
      as (s1 & Hs1 & ->); [unfold cap; cbn [elems spare]; lia |].
    destruct (compareHashes_head (List.map name fis) (fullChecksum Fprintf fis)
                (List.map (checksum Fprintf) fis) (Slice bytes sp2))
      as (s2 & Hs2 & ->); [unfold cap; cbn [elems spare]; lia |].
    cbn [elems spare] in Hs1, Hs2.
    rewrite take_app_le in Hs1 by exact Hlen.
    rewrite take_app_le in Hs2 by exact Hlen.
    rewrite Hs1 in Hs2. injection Hs2 as <-.
    destruct (s1 =? _); [reflexivity |].
    unfold sliceFrom, len. cbn [elems spare].
    now destruct (8 <=? length bytes)%nat.
  - unfold CompareHashStruct. now rewrite Hg.
  - unfold CompareHashStruct. now rewrite Hg.
Qed.

Lemma CompareHashStruct_spare_witness :
  (8 <= length (elems twelveZeros))%nat
  /\ CompareHashStruct printed (PointerToStruct test1) (Slice (elems twelveZeros) [1; 2; 3])
     = CompareHashStruct printed (PointerToStruct test1) (Slice (elems twelveZeros) []).
Proof.
  assert (8 <= length (elems twelveZeros))%nat as H
      by (apply (bool_decide_unpack _); exact I).
  split; [exact H |].
  exact (CompareHashStruct_spare printed (PointerToStruct test1) _ [1; 2; 3] [] H).
Defined.

(** X14.  The fingerprint of one well-formed record compared with another
    well-formed record that has at least as many fields (fewer than [2^32]),
    the fields of both exported, never panics: the result is [nil], or a [FieldChangedError] whose [Field]
    is empty or a tag of the record compared. *)
Theorem CompareHashStruct_same_shape {V} (Fprintf : V -> list Z)
    (old new : list (structField V)) :
  wellFormed old -> wellFormed new ->
  exportedFields old -> exportedFields new ->
  (length old <= length new)%nat -> Z.of_nat (length new) < 2 ^ 32 ->
  exists h,
    HashStruct Fprintf (PointerToStruct old) = Returns (Ret h)
    /\ (CompareHashStruct Fprintf (PointerToStruct new) h = Returns None
        \/ exists f,
            CompareHashStruct Fprintf (PointerToStruct new) h
            = Returns (Some (FieldChangedError f))
            /\ (f = "" \/ f ∈ List.map tagOf new)).
Proof.
  intros Hold Hnew Hexold Hexnew Hle Hn.
  rewrite (HashStruct_wellFormed Fprintf old Hold Hexold).
  eexists. split; [reflexivity |].
  rewrite (CompareHashStruct_compareHashes Fprintf _ _ _
             (getFieldInfos_wellFormed new Hnew Hexnew)).
  set (sortedOld := sortByName (List.map infoOf old)).
  set (sortedNew := sortByName (List.map infoOf new)).
  assert (length sortedOld = length old) as HlenOld
      by (unfold sortedOld; now rewrite length_sortByName, length_map).
  assert (length sortedNew = length new) as HlenNew
      by (unfold sortedNew; now rewrite length_sortByName, length_map).
  rewrite compareHashes_encoded.
  2:{ apply fullChecksum_range. }
  2:{ apply calculateHammingCode_range, Forall_forall. intros x Hx.
      apply list_elem_of_In, in_map_iff in Hx as (info & <- & _).
      apply checksum_range. }
  destruct (_ =? _); [now left |]. right.
  destruct (findErrorLocation_returns (List.map (checksum Fprintf) sortedNew)
              (calculateHammingCode (List.map (checksum Fprintf) sortedOld)))
    as (found & loc & -> & Hloc).
  { rewrite !hammingCode_length_parityCount
      by (rewrite length_map; lia).
    rewrite !length_map, HlenOld, HlenNew.
    pose proof (parityCount_mono _ _ Hle).
    pose proof (parityCount_range (length old) ltac:(lia)). lia. }
  cbn [obind]. destruct found; cbn [negb].
  - specialize (Hloc eq_refl). rewrite length_map in Hloc. unfold index.
    destruct (lookup_lt_is_Some_2 (List.map name sortedNew) (Z.to_nat loc))
      as [f Hf]; [rewrite length_map; lia |].
    rewrite Hf. cbn [obind]. exists f. split; [reflexivity |]. right.
    apply list_elem_of_lookup_2 in Hf. unfold sortedNew in Hf.
    now rewrite sortByName_Permutation, map_name_infoOf in Hf.
  - exists "". split; [reflexivity | now left].
Qed.

Lemma CompareHashStruct_same_shape_witness :
  wellFormed test1Short /\ wellFormed test1TwoChanged
  /\ exportedFields test1Short /\ exportedFields test1TwoChanged
  /\ exists h,
      HashStruct printed (PointerToStruct test1Short) = Returns (Ret h)
      /\ (CompareHashStruct printed (PointerToStruct test1TwoChanged) h = Returns None
          \/ exists f,
              CompareHashStruct printed (PointerToStruct test1TwoChanged) h
              = Returns (Some (FieldChangedError f))
              /\ (f = "" \/ f ∈ List.map tagOf test1TwoChanged)).
Proof.
  assert (wellFormed test1Short) as H1 by (apply (bool_decide_unpack _); exact I).
  assert (wellFormed test1TwoChanged) as H2 by (apply (bool_decide_unpack _); exact I).
  assert (exportedFields test1Short) as E1 by (apply (bool_decide_unpack _); exact I).
  assert (exportedFields test1TwoChanged) as E2
      by (apply (bool_decide_unpack _); exact I).
  split; [exact H1 |]. split; [exact H2 |]. split; [exact E1 |]. split; [exact E2 |].
  apply (CompareHashStruct_same_shape printed test1Short test1TwoChanged H1 H2 E1 E2).
  - apply (bool_decide_unpack _). exact I.
  - reflexivity.
Defined.

(** X15.  A stored hash of eight to eleven bytes carries the full checksum
    and no parity word: against it [CompareHashStruct] on a well-formed
    record of exported fields returns [nil] when the full checksum agrees and otherwise a
    [FieldChangedError] with an empty [Field], never the name of a field. *)
Theorem CompareHashStruct_checksum_only {V} (Fprintf : V -> list Z)
    (fields : list (structField V)) (h : byteSlice) :
  wellFormed fields ->
  exportedFields fields ->
  (8 <= len h < 12)%nat ->
  exists stored,
    uint64FromSlice (take 8 (elems h)) = Returns stored
    /\ CompareHashStruct Fprintf (PointerToStruct fields) h
       = if stored =? fullChecksum Fprintf (sortByName (List.map infoOf fields))
         then Returns None
         else Returns (Some (FieldChangedError "")).
Proof.
  intros Hwf Hex Hlen.
  rewrite (CompareHashStruct_compareHashes Fprintf _ _ _
             (getFieldInfos_wellFormed fields Hwf Hex)).
  set (sorted := sortByName (List.map infoOf fields)).
  destruct (compareHashes_head (List.map name sorted) (fullChecksum Fprintf sorted)
              (List.map (checksum Fprintf) sorted) h) as (stored & Hs & ->).
  { unfold cap. unfold len in Hlen. lia. }
  rewrite take_elems in Hs by lia. exists stored. split; [exact Hs |].
  destruct (stored =? _); [reflexivity |].
  unfold sliceFrom. rewrite (proj2 (Nat.leb_le 8 (len h))) by lia.
  cbn [obind elems].
  destruct (uint32SliceFromByteSlice_returns (drop 8 (elems h)))
    as (code & -> & Hcode).
  rewrite length_drop in Hcode. fold (len h) in Hcode.
  assert (code = []) as ->.
  { apply length_zero_iff_nil. rewrite Hcode. apply Nat.div_small. lia. }
  reflexivity.
Qed.

Lemma CompareHashStruct_checksum_only_witness :
  wellFormed test1 /\ exportedFields test1
  /\ (8 <= len (Slice (replicate 9 0%Z) []) < 12)%nat
  /\ CompareHashStruct printed (PointerToStruct test1) (Slice (replicate 9 0%Z) [])
     = Returns (Some (FieldChangedError "")).
Proof.
  assert (wellFormed test1) as Hwf by (apply (bool_decide_unpack _); exact I).
  assert (8 <= len (Slice (replicate 9 0%Z) []) < 12)%nat as Hlen
      by (apply (bool_decide_unpack _); exact I).
  assert (exportedFields test1) as Hex by (apply (bool_decide_unpack _); exact I).
  split; [exact Hwf |]. split; [exact Hex |]. split; [exact Hlen |].
  destruct (CompareHashStruct_checksum_only printed test1 _ Hwf Hex Hlen)
    as (stored & Hs & Hcmp).
  injection Hs as <-. rewrite Hcmp. vm_compute. reflexivity.
Defined.

(** X16.  A fingerprint taken when the struct had more fields, all fields
    exported then and now: when the
    record compared needs fewer parity words than the fingerprint holds and
    the full checksums differ, [CompareHashStruct] panics on
    [expectedCode[i]] in [findErrorLocation]. *)
Theorem CompareHashStruct_fewer_fields {V} (Fprintf : V -> list Z)
    (old new : list (structField V)) :
  wellFormed old -> wellFormed new ->
  exportedFields old -> exportedFields new ->
  Z.of_nat (length old) < 2 ^ 32 ->
  parityCount (length new) < parityCount (length old) ->
  fullChecksum Fprintf (sortByName (List.map infoOf new))
  <> fullChecksum Fprintf (sortByName (List.map infoOf old)) ->
  exists h,
    HashStruct Fprintf (PointerToStruct old) = Returns (Ret h)
    /\ CompareHashStruct Fprintf (PointerToStruct new) h = Panics.
Proof.
  intros Hold Hnew Hexold Hexnew Hn Hcount Hfull.
  assert (length new < length old)%nat as Hlt.
  { destruct (Nat.lt_ge_cases (length new) (length old)) as [H | H]; [exact H |].
    pose proof (parityCount_mono _ _ H). lia. }
  rewrite (HashStruct_wellFormed Fprintf old Hold Hexold).
  eexists. split; [reflexivity |].
  rewrite (CompareHashStruct_compareHashes Fprintf _ _ _
             (getFieldInfos_wellFormed new Hnew Hexnew)).
  rewrite compareHashes_encoded.
  2:{ apply fullChecksum_range. }
  2:{ apply calculateHammingCode_range, Forall_forall. intros x Hx.
      apply list_elem_of_In, in_map_iff in Hx as (info & <- & _).
      apply checksum_range. }
  rewrite (proj2 (Z.eqb_neq _ _)) by (intros Heq; apply Hfull; now symmetry).
  unfold findErrorLocation. rewrite locateLoop_panics; [reflexivity |].
  rewrite !hammingCode_length_parityCount
    by (rewrite length_map, length_sortByName, length_map; lia).
  rewrite !length_map, !length_sortByName, !length_map.
  pose proof (parityCount_range (length new) ltac:(lia)).
  pose proof (parityCount_range (length old) ltac:(lia)). lia.
Qed.

Lemma CompareHashStruct_fewer_fields_witness :
  wellFormed test1 /\ wellFormed test1Short
  /\ exportedFields test1 /\ exportedFields test1Short
  /\ parityCount (length test1Short) < parityCount (length test1)
  /\ exists h,
      HashStruct printed (PointerToStruct test1) = Returns (Ret h)
      /\ CompareHashStruct printed (PointerToStruct test1Short) h = Panics.
Proof.
  assert (wellFormed test1) as H1 by (apply (bool_decide_unpack _); exact I).
  assert (wellFormed test1Short) as H2 by (apply (bool_decide_unpack _); exact I).
  assert (exportedFields test1) as E1 by (apply (bool_decide_unpack _); exact I).
  assert (exportedFields test1Short) as E2 by (apply (bool_decide_unpack _); exact I).
  split; [exact H1 |]. split; [exact H2 |]. split; [exact E1 |]. split; [exact E2 |].
  split; [reflexivity |].
  apply (CompareHashStruct_fewer_fields printed test1 test1Short H1 H2 E1 E2).
  - reflexivity.
  - reflexivity.
  - vm_compute. discriminate.
Defined.

(** ** TestStructDefinition *)

Lemma structualLoop_spec {V} (fieldInfos : list (fieldInfo V)) (h : Z) :
  structualLoop fieldInfos h
  = write64 h (concat (List.map (fun info => bytesOf (name info)) fieldInfos)).
Proof.
  revert h. induction fieldInfos as [| info rest IH]; intros h; [reflexivity |].
  cbn [structualLoop List.map concat]. now rewrite IH, write64_app.
Qed.

Lemma TestStructDefinition_wellFormed {V} (t : list report)
    (fields : list (structField V)) (expectedHash : byteSlice) :
  wellFormed fields ->
  exportedFields fields ->
  TestStructDefinition t (PointerToStruct fields) expectedHash
  = (head8 <-! sliceTo expectedHash 8;
     expected <-! uint64FromSlice (elems head8);
     if negb (write64 offset64 (tagBytes fields) =? expected)
     then Returns (t ++ [StructChanged]) else Returns t).
Proof.
  intros Hwf Hex. unfold TestStructDefinition.
  rewrite (getFieldInfos_wellFormed fields Hwf Hex). cbn [obind].
  rewrite structualLoop_spec. reflexivity.
Qed.

(** X17.  On a struct of exported fields with distinct non-empty tags and an
    expected hash of at least eight bytes, [TestStructDefinition] reports nothing exactly when
    the first eight bytes are the little-endian FNV-1a 64 hash of the tags,
    sorted and written one after the other; otherwise it reports "the struct
    definition has changed" once.  The values of the fields play no part. *)
Theorem TestStructDefinition_passes {V} (t : list report)
    (fields : list (structField V)) (expectedHash : byteSlice) :
  wellFormed fields ->
  exportedFields fields ->
  (8 <= len expectedHash)%nat ->
  exists expected,
    uint64FromSlice (take 8 (elems expectedHash)) = Returns expected
    /\ TestStructDefinition t (PointerToStruct fields) expectedHash
       = Returns (if expected =? write64 offset64 (tagBytes fields) then t
                  else t ++ [StructChanged])
    /\ TestStructDefinition t (PointerToStruct fields)
         (Slice (uint64ToSlice (write64 offset64 (tagBytes fields))) [])
       = Returns t.
Proof.
  intros Hwf Hex Hlen.
  assert (forall eh, (8 <= len eh)%nat ->
            exists expected,
              uint64FromSlice (take 8 (elems eh)) = Returns expected
              /\ TestStructDefinition t (PointerToStruct fields) eh
                 = Returns (if expected =? write64 offset64 (tagBytes fields) then t
                            else t ++ [StructChanged])) as Hgen.
  { intros eh Heh. rewrite TestStructDefinition_wellFormed by assumption.
    destruct (uint64FromSlice_returns (take 8 (elems eh))) as [expected He].
    { rewrite length_take. unfold len in Heh. lia. }
    exists expected. split; [exact He |].
    unfold sliceTo, cap. rewrite (proj2 (Nat.leb_le 8 _)) by (unfold len in Heh; lia).
    cbn [obind elems]. rewrite take_elems, He by exact Heh. cbn [obind].
    rewrite Z.eqb_sym. now destruct (expected =? _). }
  destruct (Hgen expectedHash Hlen) as (expected & He & Hres).
  exists expected. split; [exact He |]. split; [exact Hres |].
  destruct (Hgen (Slice (uint64ToSlice (write64 offset64 (tagBytes fields))) []))
    as (stored & Hs & ->); [unfold len; cbn [elems]; rewrite length_uint64ToSlice; lia |].
  cbn [elems] in Hs.
  pose proof (uint64FromSlice_uint64ToSlice (write64 offset64 (tagBytes fields)) [])
    as Hdec.
  rewrite app_nil_r in Hdec.
  rewrite (take_ge (uint64ToSlice _)) in Hs by (rewrite length_uint64ToSlice; lia).
  rewrite Hdec in Hs by (apply write64_range; unfold isUint64, offset64; lia).
  injection Hs as <-. now rewrite Z.eqb_refl.
Qed.

Lemma TestStructDefinition_passes_witness :
  wellFormed test1 /\ exportedFields test1 /\ (8 <= len twelveZeros)%nat
  /\ TestStructDefinition [] (PointerToStruct test1) twelveZeros
     = Returns [StructChanged]
  /\ TestStructDefinition [] (PointerToStruct test1)
       (Slice (uint64ToSlice (write64 offset64 (tagBytes test1))) [])
     = Returns [].
Proof.
  assert (wellFormed test1) as Hwf by (apply (bool_decide_unpack _); exact I).
  assert (8 <= len twelveZeros)%nat as Hlen by (apply (bool_decide_unpack _); exact I).
  assert (exportedFields test1) as Hex by (apply (bool_decide_unpack _); exact I).
  split; [exact Hwf |]. split; [exact Hex |]. split; [exact Hlen |].
  destruct (TestStructDefinition_passes [] test1 twelveZeros Hwf Hex Hlen)
    as (expected & He & Hcmp & Hpass).
  injection He as <-. split; [| exact Hpass].
  rewrite Hcmp. vm_compute. reflexivity.
Defined.

Lemma sorted_names_permuted {V W} (fields1 : list (structField V))
    (fields2 : list (structField W)) :
  wellFormed fields1 ->
  List.map tagOf fields1 ≡ₚ List.map tagOf fields2 ->
  List.map name (sortByName (List.map infoOf fields1))
  = List.map name (sortByName (List.map infoOf fields2)).
Proof.
  intros Hwf Hperm.
  assert (forall (U : Type) (fields : list (structField U)),
            List.map name (sortByName (List.map infoOf fields))
            = List.map name
                (sortByName (List.map (fun tag => FieldInfo tag tt)
                               (List.map tagOf fields)))) as Hunit.
  { intros U fields.
    assert (List.map (fun tag => FieldInfo tag tt) (List.map tagOf fields)
            = List.map (fun x : fieldInfo U => FieldInfo (name x) tt)
                (List.map infoOf fields)) as ->
        by (rewrite !List.map_map; reflexivity).
    rewrite sortByName_map by reflexivity. rewrite List.map_map. reflexivity. }
  rewrite (Hunit V fields1), (Hunit W fields2). f_equal. symmetry.
  apply sortByName_permuted.
  - rewrite List.map_map. cbn [name]. rewrite List.map_id. apply Hwf.
  - now apply Permutation_map.
Qed.

Lemma tagBytes_names {V} (fields : list (structField V)) :
  tagBytes fields
  = concat (List.map bytesOf (List.map name (sortByName (List.map infoOf fields)))).
Proof. unfold tagBytes. now rewrite List.map_map. Qed.

(** X18.  [TestStructDefinition] looks at the set of tags only: two structs
    of exported fields with the same tags, in whatever declaration order and with whatever
    field names, types and values, get the same verdict for every expected
    hash. *)
Theorem TestStructDefinition_tags_only {V W} (t : list report)
    (fields1 : list (structField V)) (fields2 : list (structField W))
    (expectedHash : byteSlice) :
  wellFormed fields1 ->
  exportedFields fields1 -> exportedFields fields2 ->
  List.map tagOf fields1 ≡ₚ List.map tagOf fields2 ->
  TestStructDefinition t (PointerToStruct fields1) expectedHash
  = TestStructDefinition t (PointerToStruct fields2) expectedHash.
Proof.
  intros Hwf1 Hex1 Hex2 Hperm.
  assert (wellFormed fields2) as Hwf2.
  { destruct Hwf1 as [Hne Hnd]. split; [| now rewrite <- Hperm].
    apply Forall_forall. intros f Hin Hempty.
    assert (tagOf f ∈ List.map tagOf fields1) as Hin1.
    { rewrite Hperm. apply list_elem_of_In, in_map, list_elem_of_In, Hin. }
    apply list_elem_of_In, in_map_iff in Hin1 as (g & Hg & Hing).
    rewrite Forall_forall in Hne. apply (Hne g); [now apply list_elem_of_In |].
    congruence. }
  rewrite !TestStructDefinition_wellFormed by assumption.
  now rewrite !tagBytes_names, (sorted_names_permuted fields1 fields2 Hwf1 Hperm).
Qed.

Lemma TestStructDefinition_tags_only_witness :
  wellFormed test1
  /\ exportedFields test1 /\ exportedFields test1TwoChanged
  /\ List.map tagOf test1 ≡ₚ List.map tagOf test1TwoChanged
  /\ TestStructDefinition [] (PointerToStruct test1) twelveZeros
     = TestStructDefinition [] (PointerToStruct test1TwoChanged) twelveZeros.
Proof.
  assert (wellFormed test1) as Hwf by (apply (bool_decide_unpack _); exact I).
  assert (List.map tagOf test1 ≡ₚ List.map tagOf test1TwoChanged) as Hperm
      by reflexivity.
  assert (exportedFields test1) as E1 by (apply (bool_decide_unpack _); exact I).
  assert (exportedFields test1TwoChanged) as E2
      by (apply (bool_decide_unpack _); exact I).
  split; [exact Hwf |]. split; [exact E1 |]. split; [exact E2 |].
  split; [exact Hperm |].
  exact (TestStructDefinition_tags_only [] test1 test1TwoChanged twelveZeros
           Hwf E1 E2 Hperm).
Defined.

(** X19.  The tags are hashed one after the other with nothing between
    them: two structs of exported fields whose sorted tags give the same
    bytes when written in a row get the same verdict, although their tags differ.  A struct with
    the one tag "ab" passes wherever a struct with the tags "a" and "b"
    does. *)
Theorem TestStructDefinition_concatenation {V W} (t : list report)
    (fields1 : list (structField V)) (fields2 : list (structField W))
    (expectedHash : byteSlice) :
  wellFormed fields1 -> wellFormed fields2 ->
  exportedFields fields1 -> exportedFields fields2 ->
  tagBytes fields1 = tagBytes fields2 ->
  TestStructDefinition t (PointerToStruct fields1) expectedHash
  = TestStructDefinition t (PointerToStruct fields2) expectedHash.
Proof.
  intros Hwf1 Hwf2 Hex1 Hex2 Hbytes.
  rewrite !TestStructDefinition_wellFormed by assumption. now rewrite Hbytes.
Qed.

Lemma TestStructDefinition_concatenation_witness :
  wellFormed oneTag /\ wellFormed twoTags
  /\ exportedFields oneTag /\ exportedFields twoTags
  /\ List.map tagOf oneTag <> List.map tagOf twoTags
  /\ tagBytes oneTag = tagBytes twoTags
  /\ TestStructDefinition [] (PointerToStruct oneTag)
       (Slice (uint64ToSlice (write64 offset64 (tagBytes twoTags))) [])
     = Returns [].
Proof.
  assert (wellFormed oneTag) as H1 by (apply (bool_decide_unpack _); exact I).
  assert (wellFormed twoTags) as H2 by (apply (bool_decide_unpack _); exact I).
  assert (tagBytes oneTag = tagBytes twoTags) as Hb by reflexivity.
  assert (exportedFields oneTag) as E1 by (apply (bool_decide_unpack _); exact I).
  assert (exportedFields twoTags) as E2 by (apply (bool_decide_unpack _); exact I).
  split; [exact H1 |]. split; [exact H2 |]. split; [exact E1 |]. split; [exact E2 |].
  split; [discriminate |]. split; [exact Hb |].
  rewrite (TestStructDefinition_concatenation [] oneTag twoTags _ H1 H2 E1 E2 Hb).
  vm_compute. reflexivity.
Defined.

(** X20.  [t.Error] does not end the test: on an argument [getFieldInfos]
    rejects, [TestStructDefinition] reports that error and goes on to
    compare the expected hash with the hash of no tags at all, the FNV offset
    basis, reporting "the struct definition has changed" as well unless the
    two agree.  Whatever the argument, an expected hash over an array of
    fewer than eight bytes makes it panic. *)
Theorem TestStructDefinition_invalid {V} (t : list report) (obj : object V)
    (expectedHash : byteSlice) :
  ((cap expectedHash < 8)%nat -> TestStructDefinition t obj expectedHash = Panics)
  /\ forall e,
      getFieldInfos obj = Returns (Fail e) ->
      (8 <= cap expectedHash)%nat ->
      exists expected,
        uint64FromSlice (take 8 (elems expectedHash ++ spare expectedHash))
        = Returns expected
        /\ TestStructDefinition t obj expectedHash
           = Returns (if expected =? offset64 then t ++ [Reported e]
                      else t ++ [Reported e; StructChanged]).
Proof.
  split.
  - intros Hcap. unfold TestStructDefinition, sliceTo.
    rewrite (proj2 (Nat.leb_gt 8 _)) by exact Hcap.
    now destruct (getFieldInfos obj) as [[fieldInfos | err] |].
  - intros e He Hcap.
    destruct (uint64FromSlice_returns (take 8 (elems expectedHash ++ spare expectedHash)))
      as [expected Hexp].
    { rewrite length_take, length_app. unfold cap in Hcap. lia. }
    exists expected. split; [exact Hexp |].
    unfold TestStructDefinition, sliceTo. rewrite He.
    rewrite (proj2 (Nat.leb_le 8 _)) by exact Hcap.
    cbn [obind elems structualLoop]. rewrite Hexp. cbn [obind].
    rewrite Z.eqb_sym. destruct (expected =? offset64); cbn [negb].
    + reflexivity.
    + now rewrite <- app_assoc.
Qed.

Lemma TestStructDefinition_invalid_witness :
  TestStructDefinition [] (PointerToStruct tagMissing) (Slice [1; 2; 3] []) = Panics
  /\ TestStructDefinition [] (PointerToStruct tagMissing) twelveZeros
     = Returns [Reported (ErrNoTag "Field1"); StructChanged].
Proof.
  split.
  - apply (proj1 (TestStructDefinition_invalid [] (PointerToStruct tagMissing)
                    (Slice [1; 2; 3] []))).
    apply (bool_decide_unpack _). exact I.
  - destruct (proj2 (TestStructDefinition_invalid [] (PointerToStruct tagMissing)
                       twelveZeros) (ErrNoTag "Field1") eq_refl)
      as (expected & He & Hres).
    + apply (bool_decide_unpack _). exact I.
    + injection He as <-. exact Hres.
Defined.

(** ** Unexported fields *)

(** X22.  The package has no check for unexported fields: on a struct whose
    fields have distinct non-empty tags and one of which is unexported,
    [getFieldInfos] panics in [fieldValue.Addr().Interface()], and with it
    [HashStruct], [CompareHashStruct] whatever the stored hash, and
    [TestStructDefinition] whatever the expected hash. *)
Theorem unexported_field_panics {V} (Fprintf : V -> list Z) (t : list report)
    (fields : list (structField V)) (h : byteSlice) :
  wellFormed fields ->
  ~ exportedFields fields ->
  getFieldInfos (PointerToStruct fields) = Panics
  /\ HashStruct Fprintf (PointerToStruct fields) = Panics
  /\ CompareHashStruct Fprintf (PointerToStruct fields) h = Panics
  /\ TestStructDefinition t (PointerToStruct fields) h = Panics.
Proof.
  intros Hwf Hex.
  pose proof (getFieldInfos_unexported fields Hwf Hex) as Hg.
  unfold HashStruct, CompareHashStruct, TestStructDefinition.
  rewrite Hg. auto.
Qed.

Lemma unexported_field_panics_witness :
  wellFormed withUnexported
  /\ ~ exportedFields withUnexported
  /\ HashStruct printed (PointerToStruct withUnexported) = Panics
  /\ TestStructDefinition [] (PointerToStruct withUnexported) twelveZeros = Panics.
Proof.
  assert (wellFormed withUnexported) as Hwf by (apply (bool_decide_unpack _); exact I).
  assert (~ exportedFields withUnexported) as Hex
      by (apply (bool_decide_unpack _); exact I).
  destruct (unexported_field_panics printed [] withUnexported twelveZeros Hwf Hex)
    as (_ & Hhash & _ & Htest).
  split; [exact Hwf |]. split; [exact Hex |]. split; [exact Hhash | exact Htest].
Defined.

(** ** FieldChangedError.Error *)

Lemma append_inj_r (a b c : string) : (a ++ c = b ++ c)%string -> a = b.
Proof.
  intros H.
  assert (forall s, list_ascii_of_string (s ++ c)
                    = (list_ascii_of_string s ++ list_ascii_of_string c)%list) as Happ.
  { induction s as [| x s IH]; simpl; [reflexivity | now rewrite IH]. }
  apply (f_equal list_ascii_of_string) in H. rewrite !Happ in H.
  apply app_inv_tail in H.
  rewrite <- (string_of_list_ascii_of_string a), <- (string_of_list_ascii_of_string b).
  now rewrite H.
Qed.

(** X21.  The message of a [FieldChangedError] is "a field value changed"
    exactly when [Field] is empty, whatever the quoting of [%q] yields; and
    since that quoting is one-to-one, two errors with the same message name
    the same field. *)
Theorem Error_message (quote : string -> string) :
  (forall Field, Error quote Field = "a field value changed" <-> Field = "")
  /\ ((forall a b, quote a = quote b -> a = b) ->
      forall f g, Error quote f = Error quote g -> f = g).
Proof.
  assert (forall Field, Error quote Field = "a field value changed" <-> Field = "")
    as Hempty.
  { intros Field. unfold Error. destruct (String.eqb_spec Field "") as [-> | Hne].
    - split; reflexivity.
    - split; [discriminate | contradiction]. }
  split; [exact Hempty |]. intros Hinj f g Heq.
  destruct (String.eqb_spec f "") as [-> | Hf], (String.eqb_spec g "") as [-> | Hg].
  - reflexivity.
  - symmetry in Heq. apply Hempty in Heq. now symmetry.
  - now apply Hempty in Heq.
  - unfold Error in Heq.
    rewrite (proj2 (String.eqb_neq f "") Hf), (proj2 (String.eqb_neq g "") Hg) in Heq.
    injection Heq as Heq.
    change (quote f ++ "'s value changed" = quote g ++ "'s value changed")%string
      in Heq.
    apply append_inj_r in Heq. now apply Hinj.
Qed.

Lemma Error_message_witness :
  Error quotePlain "" = "a field value changed"
  /\ forall f g, Error quotePlain f = Error quotePlain g -> f = g.
Proof.
  split; [reflexivity |].
  apply (proj2 (Error_message quotePlain)).
  intros a b H. unfold quotePlain in H. injection H as H.
  exact (append_inj_r a b _ H).
Defined.
